(** * A unified Redis access layer: configuration, key/TTL policy, client
      construction and pipelines.

    Shallow embedding of the Go package [cache] (config.go, errors.go,
    factory.go, single_client.go, client.go, pipeliner.go) and the
    properties of its key-prefix policy, TTL resolution, validation,
    factory and pipeline result handles. *)

From Stdlib Require Import ZArith Lia.
From stdpp Require Import gmap strings list.

Open Scope Z_scope.
Open Scope string_scope.
Open Scope list_scope.

(** ** errors.go *)

(** Go's [error] values.  Every [errors.New] of errors.go is a distinct
    object; [RedisNil] is the driver's [redis.Nil]; [DriverError] is any
    other error produced by the driver or the server (wrong type, i/o
    failure, ...); [Wrapf] is [fmt.Errorf("msg: %w", e)] and [Errorf] is
    [fmt.Errorf] without a wrapped error.  A nil [error] is [None]. *)
Inductive error : Type :=
  | ErrInvalidMode
  | ErrMissingSingleConfig
  | ErrMissingClusterConfig
  | ErrMissingSentinelConfig
  | ErrMissingAddr
  | ErrMissingAddrs
  | ErrMissingMasterName
  | ErrClientClosed
  | ErrNilResult
  | ErrKeyNotFound
  | ErrInvalidType
  | ErrScriptNotFound
  | ErrConnectionFailed
  | ErrConnectionTimeout
  | ErrPoolExhausted
  | ErrAuthFailed
  | ErrClusterDown
  | ErrNoReachableNode
  | ErrTooManyRedirects
  | ErrSentinelNoMaster
  | ErrSentinelMasterDown
  | ErrNoSentinelAvailable
  | ErrPipelineEmpty
  | ErrPipelineClosed
  | RedisNil
  | DriverError (msg : string)
  | Errorf (msg : string)
  | Wrapf (msg : string) (e : error).

#[global] Instance error_eq_dec : EqDecision error.
Proof. solve_decision. Defined.

(** [errors.Is err target] for a comparable target: walk the [%w] chain. *)
Fixpoint errors_Is (err target : error) : bool :=
  if decide (err = target) then true
  else match err with
       | Wrapf _ e => errors_Is e target
       | _ => false
       end.

(** The message of the error, [err.Error()]. *)
Fixpoint Error (e : error) : string :=
  match e with
  | ErrInvalidMode => "invalid redis mode"
  | ErrMissingSingleConfig => "missing single mode config"
  | ErrMissingClusterConfig => "missing cluster mode config"
  | ErrMissingSentinelConfig => "missing sentinel mode config"
  | ErrMissingAddr => "missing server address"
  | ErrMissingAddrs => "missing server addresses"
  | ErrMissingMasterName => "missing master name"
  | ErrClientClosed => "redis client is closed"
  | ErrNilResult => "redis: nil result"
  | ErrKeyNotFound => "redis: key not found"
  | ErrInvalidType => "redis: invalid data type"
  | ErrScriptNotFound => "redis: script not found"
  | ErrConnectionFailed => "redis: connection failed"
  | ErrConnectionTimeout => "redis: connection timeout"
  | ErrPoolExhausted => "redis: connection pool exhausted"
  | ErrAuthFailed => "redis: authentication failed"
  | ErrClusterDown => "redis: cluster is down"
  | ErrNoReachableNode => "redis: no reachable cluster node"
  | ErrTooManyRedirects => "redis: too many cluster redirects"
  | ErrSentinelNoMaster => "redis: sentinel no master found"
  | ErrSentinelMasterDown => "redis: sentinel master is down"
  | ErrNoSentinelAvailable => "redis: no sentinel available"
  | ErrPipelineEmpty => "redis: pipeline is empty"
  | ErrPipelineClosed => "redis: pipeline is closed"
  | RedisNil => "redis: nil"
  | DriverError msg => msg
  | Errorf msg => msg
  | Wrapf msg e => msg +:+ ": " +:+ Error e
  end.

(** The configuration errors of errors.go, first [var] block. *)
Definition configErrors : list error :=
  [ErrInvalidMode; ErrMissingSingleConfig; ErrMissingClusterConfig;
   ErrMissingSentinelConfig; ErrMissingAddr; ErrMissingAddrs;
   ErrMissingMasterName].

(** ** config.go *)

(** [time.Duration]: a signed count of nanoseconds. *)
Definition Duration := Z.
Definition Nanosecond : Duration := 1.
Definition Millisecond : Duration := 1000000.
Definition Second : Duration := 1000 * Millisecond.
Definition Minute : Duration := 60 * Second.
Definition Hour : Duration := 60 * Minute.

Definition Mode := string.
Definition ModeSingle : Mode := "single".
Definition ModeCluster : Mode := "cluster".
Definition ModeSentinel : Mode := "sentinel".

Record SingleConfig := {
  single_Addr : string;
  single_DB : Z
}.

Record ClusterConfig := {
  cluster_Addrs : list string;
  cluster_MaxRedirects : Z;
  cluster_ReadOnly : bool;
  cluster_RouteByLatency : bool;
  cluster_RouteRandomly : bool
}.

Record SentinelConfig := {
  sentinel_Addrs : list string;
  sentinel_MasterName : string;
  sentinel_DB : Z;
  sentinel_SentinelPassword : string
}.

Record TLSConfig := {
  tls_Enabled : bool;
  tls_InsecureSkipVerify : bool;
  tls_CertFile : string;
  tls_KeyFile : string;
  tls_CAFile : string;
  tls_ServerName : string
}.

Record CommonConfig := {
  Password : string;
  Username : string;
  PoolSize : Z;
  MinIdleConns : Z;
  MaxIdleConns : Z;
  ConnMaxAge : Duration;
  PoolTimeout : Duration;
  IdleTimeout : Duration;
  DialTimeout : Duration;
  ReadTimeout : Duration;
  WriteTimeout : Duration;
  MaxRetries : Z;
  MinRetryBackoff : Duration;
  MaxRetryBackoff : Duration;
  KeyPrefix : string;
  DefaultTTL : Duration;
  TLS : option TLSConfig;
  EnableMetrics : bool;
  EnableTracing : bool
}.

(** The pointer fields [Single], [Cluster], [Sentinel] are [None] when nil. *)
Record Config := {
  mode : Mode;
  Single : option SingleConfig;
  Cluster : option ClusterConfig;
  Sentinel : option SentinelConfig;
  Common : CommonConfig
}.

Definition DefaultConfig : Config :=
  {| mode := ModeSingle;
     Single := Some {| single_Addr := "localhost:6379"; single_DB := 0 |};
     Cluster := None;
     Sentinel := None;
     Common :=
       {| Password := ""; Username := "";
          PoolSize := 10; MinIdleConns := 2; MaxIdleConns := 5;
          ConnMaxAge := Hour;
          PoolTimeout := Second * 4;
          IdleTimeout := Minute * 5;
          DialTimeout := Second * 5;
          ReadTimeout := Second * 3;
          WriteTimeout := Second * 3;
          MaxRetries := 3;
          MinRetryBackoff := Millisecond * 8;
          MaxRetryBackoff := Millisecond * 512;
          KeyPrefix := "";
          DefaultTTL := Hour * 24;
          TLS := None;
          EnableMetrics := false;
          EnableTracing := false |} |}.

(** [len(s) == 0] on a slice. *)
Definition is_empty {A} (l : list A) : bool :=
  match l with [] => true | _ => false end.

(** [Config.Validate]: [None] is the nil error. *)
Definition Validate (c : Config) : option error :=
  if decide (mode c = "") then Some ErrInvalidMode
  else if decide (mode c = ModeSingle) then
    match Single c with
    | None => Some ErrMissingSingleConfig
    | Some s => if decide (single_Addr s = "") then Some ErrMissingAddr else None
    end
  else if decide (mode c = ModeCluster) then
    match Cluster c with
    | None => Some ErrMissingClusterConfig
    | Some cl => if is_empty (cluster_Addrs cl) then Some ErrMissingAddrs else None
    end
  else if decide (mode c = ModeSentinel) then
    match Sentinel c with
    | None => Some ErrMissingSentinelConfig
    | Some s =>
        if is_empty (sentinel_Addrs s) then Some ErrMissingAddrs
        else if decide (sentinel_MasterName s = "") then Some ErrMissingMasterName
        else None
    end
  else Some ErrInvalidMode.

(** [Config.GetKeyWithPrefix]. *)
Definition GetKeyWithPrefix (c : Config) (key : string) : string :=
  if decide (KeyPrefix (Common c) = "") then key
  else KeyPrefix (Common c) +:+ key.

(** [Config.GetTTL]. *)
Definition GetTTL (c : Config) (ttl : Duration) : Duration :=
  if (0 <? ttl)%Z then ttl else DefaultTTL (Common c).

(** ** Prefix stripping of [Keys] and [Scan] (single_client.go, client.go) *)

(** Go's [key[n:]] for [n <= len(key)]. *)
Fixpoint string_drop (n : nat) (s : string) : string :=
  match n, s with
  | O, _ => s
  | S n', String _ s' => string_drop n' s'
  | S _, EmptyString => EmptyString
  end.

(** The body of the loop over the returned keys:
    [if len(key) > prefixLen { keys[i] = key[prefixLen:] }]. *)
Definition stripKey (prefixLen : nat) (key : string) : string :=
  if (prefixLen <? String.length key)%nat then string_drop prefixLen key
  else key.

(** The whole block guarded by [KeyPrefix != ""]. *)
Definition stripPrefix (c : Config) (keys : list string) : list string :=
  if decide (KeyPrefix (Common c) = "") then keys
  else stripKey (String.length (KeyPrefix (Common c))) <$> keys.

(** What one returned key becomes. *)
Definition stripPrefix1 (c : Config) (key : string) : string :=
  if decide (KeyPrefix (Common c) = "") then key
  else stripKey (String.length (KeyPrefix (Common c))) key.

(** ** The driver boundary for single commands *)

(** Values of Go's [interface{}] passed as command arguments. *)
Inductive Iface : Type :=
  | INil
  | IString (s : string)
  | IInt (n : Z)
  | IBool (b : bool)
  | IBytes (bs : string).

(** A driver command after its round trip: [Val()] and [Err()]. *)
Record Reply (A : Type) := mkReply { rVal : A; rErr : option error }.
Arguments mkReply {A} _ _.
Arguments rVal {A} _.
Arguments rErr {A} _.

(** [Result()] of a driver command. *)
Definition Result {A} (r : Reply A) : A * option error := (rVal r, rErr r).

(** [*redis.Client] as the wrappers use it here: what the store answers
    to each command.  A lookup that misses is answered with [redis.Nil]. *)
Record Redis := {
  redis_Get : string -> Reply string;
  redis_Set : string -> Iface -> Duration -> Reply string;
  redis_MSet : list Iface -> Reply string;
  redis_Keys : string -> Reply (list string);
  redis_Scan : Z -> string -> Z -> Reply (list string * Z)
}.

(** The result of a Go call that may panic. *)
Inductive Outcome (A : Type) : Type :=
  | Returned (a : A)
  | Panicked.
Arguments Returned {A} _.
Arguments Panicked {A}.

(** The loop of [MSet]:
    [for i := 0; i < len(pairs); i += 2 { if i+1 < len(pairs) { ... } }],
    one iteration per unit of [fuel]; [pairs[i].(string)] panics on any
    value that is not a string. *)
Fixpoint MSet_loop (c : Config) (pairs : list Iface) (fuel i : nat)
    (prefixedPairs : list Iface) : Outcome (list Iface) :=
  match fuel with
  | O => Returned prefixedPairs
  | S fuel' =>
      if (i <? length pairs)%nat then
        if (i + 1 <? length pairs)%nat then
          match pairs !! i with
          | Some (IString key) =>
              MSet_loop c pairs fuel' (i + 2)
                (<[(i + 1)%nat := default INil (pairs !! (i + 1)%nat)]>
                   (<[i := IString (GetKeyWithPrefix c key)]> prefixedPairs))
          | _ => Panicked
          end
        else MSet_loop c pairs fuel' (i + 2) prefixedPairs
      else Returned prefixedPairs
  end.

(** The argument list [MSet] forwards to the driver:
    [make([]interface{}, len(pairs))] filled by the loop. *)
Definition MSet_pairs (c : Config) (pairs : list Iface) : Outcome (list Iface) :=
  MSet_loop c pairs (length pairs) 0 (replicate (length pairs) INil).

(** The methods shared, word for word, by [SingleClient] and
    [SentinelClient]: both hold a [*redis.Client] and the [*Config]. *)
Module RedisClient.
Record t := { client : Redis; config : Config }.

Definition Get (c : t) (key : string) : string * option error :=
  let key := GetKeyWithPrefix (config c) key in
  let result := redis_Get (client c) key in
  if decide (rErr result = Some RedisNil) then ("", Some ErrKeyNotFound)
  else Result result.

Definition Set' (c : t) (key : string) (value : Iface) (expiration : Duration)
  : option error :=
  let key := GetKeyWithPrefix (config c) key in
  let expiration := GetTTL (config c) expiration in
  rErr (redis_Set (client c) key value expiration).

Definition MSet (c : t) (pairs : list Iface) : Outcome (option error) :=
  match MSet_pairs (config c) pairs with
  | Returned prefixedPairs => Returned (rErr (redis_MSet (client c) prefixedPairs))
  | Panicked => Panicked
  end.

Definition Keys (c : t) (pattern : string) : option (list string) * option error :=
  let pattern := GetKeyWithPrefix (config c) pattern in
  let r := redis_Keys (client c) pattern in
  match rErr r with
  | Some err => (None, Some err)
  | None => (Some (stripPrefix (config c) (rVal r)), None)
  end.

Definition Scan (c : t) (cursor : Z) (match_ : string) (count : Z)
  : option (list string) * Z * option error :=
  let match_ := GetKeyWithPrefix (config c) match_ in
  let r := redis_Scan (client c) cursor match_ count in
  match rErr r with
  | Some err => (None, snd (rVal r), Some err)
  | None => (Some (stripPrefix (config c) (fst (rVal r))), snd (rVal r), None)
  end.
End RedisClient.

(** single_client.go *)
Module SingleClient.
Definition t := RedisClient.t.
Definition Get : t -> string -> string * option error := RedisClient.Get.
Definition Set' : t -> string -> Iface -> Duration -> option error := RedisClient.Set'.
Definition MSet : t -> list Iface -> Outcome (option error) := RedisClient.MSet.
Definition Keys : t -> string -> option (list string) * option error := RedisClient.Keys.
Definition Scan : t -> Z -> string -> Z -> option (list string) * Z * option error :=
  RedisClient.Scan.
End SingleClient.

(** client.go, [SentinelClient] *)
Module SentinelClient.
Definition t := RedisClient.t.
Definition Get : t -> string -> string * option error := RedisClient.Get.
Definition Set' : t -> string -> Iface -> Duration -> option error := RedisClient.Set'.
Definition MSet : t -> list Iface -> Outcome (option error) := RedisClient.MSet.
Definition Keys : t -> string -> option (list string) * option error := RedisClient.Keys.
Definition Scan : t -> Z -> string -> Z -> option (list string) * Z * option error :=
  RedisClient.Scan.
End SentinelClient.

(** ** factory.go *)

(** [tls.Config] as [buildTLSConfig] fills it; a certificate is opaque. *)
Definition Certificate := string.

Record tlsConfig := {
  InsecureSkipVerify : bool;
  ServerName : string;
  Certificates : list Certificate
}.

(** The pool, network and retry fields that [redis.Options],
    [redis.ClusterOptions] and [redis.FailoverOptions] have in common. *)
Record PoolOptions := {
  o_Username : string;
  o_Password : string;
  o_PoolSize : Z;
  o_MinIdleConns : Z;
  o_MaxIdleConns : Z;
  o_PoolTimeout : Duration;
  o_DialTimeout : Duration;
  o_ReadTimeout : Duration;
  o_WriteTimeout : Duration;
  o_MaxRetries : Z;
  o_MinRetryBackoff : Duration;
  o_MaxRetryBackoff : Duration;
  o_TLSConfig : option tlsConfig
}.

Record Options := {
  opt_Addr : string;
  opt_DB : Z;
  opt_pool : PoolOptions
}.

Record ClusterOptions := {
  copt_Addrs : list string;
  copt_MaxRedirects : Z;
  copt_ReadOnly : bool;
  copt_RouteByLatency : bool;
  copt_RouteRandomly : bool;
  copt_pool : PoolOptions
}.

Record FailoverOptions := {
  fopt_MasterName : string;
  fopt_SentinelAddrs : list string;
  fopt_SentinelPassword : string;
  fopt_DB : Z;
  fopt_pool : PoolOptions
}.

(** The backend handle returned by the driver's three constructors. *)
Inductive Backend : Type :=
  | NewClient (opts : Options)
  | NewClusterClient (opts : ClusterOptions)
  | NewFailoverClient (opts : FailoverOptions).

(** What the factory does to the outside world, in order. *)
Inductive event : Type :=
  | EvNew (rdb : Backend)
  | EvPing (rdb : Backend)
  | EvClose (rdb : Backend).

(** The outside world the factory runs against: the certificate files
    and the reachability of each backend ([rdb.Ping(ctx).Err()]). *)
Record World := {
  LoadX509KeyPair : string -> string -> Certificate * option error;
  Ping : Backend -> option error
}.

(** The [Client] interface value a constructor returns. *)
Inductive Client : Type :=
  | SingleClientOf (client : Backend) (config : Config)
  | ClusterClientOf (client : Backend) (config : Config)
  | SentinelClientOf (client : Backend) (config : Config).

Definition client_backend (c : Client) : Backend :=
  match c with
  | SingleClientOf b _ | ClusterClientOf b _ | SentinelClientOf b _ => b
  end.

Definition client_config (c : Client) : Config :=
  match c with
  | SingleClientOf _ cfg | ClusterClientOf _ cfg | SentinelClientOf _ cfg => cfg
  end.

Record Factory := { f_config : Config }.

(** [NewFactory]; a nil [*Config] is [None]. *)
Definition NewFactory (config : option Config) : option Factory * option error :=
  let config := match config with None => DefaultConfig | Some c => c end in
  match Validate config with
  | Some err => (None, Some (Wrapf "invalid config" err))
  | None => (Some {| f_config := config |}, None)
  end.

Definition buildTLSConfig (w : World) (t : TLSConfig) : option tlsConfig * option error :=
  let config := {| InsecureSkipVerify := tls_InsecureSkipVerify t;
                   ServerName := tls_ServerName t;
                   Certificates := [] |} in
  if negb (String.eqb (tls_CertFile t) "") && negb (String.eqb (tls_KeyFile t) "") then
    match LoadX509KeyPair w (tls_CertFile t) (tls_KeyFile t) with
    | (_, Some err) => (None, Some (Wrapf "failed to load certificate" err))
    | (cert, None) =>
        (Some {| InsecureSkipVerify := InsecureSkipVerify config;
                 ServerName := ServerName config;
                 Certificates := [cert] |}, None)
    end
  else (Some config, None).

(** The fields every constructor copies from [f.config.Common]. *)
Definition poolOptions (c : CommonConfig) : PoolOptions :=
  {| o_Username := Username c;
     o_Password := Password c;
     o_PoolSize := PoolSize c;
     o_MinIdleConns := MinIdleConns c;
     o_MaxIdleConns := MaxIdleConns c;
     o_PoolTimeout := PoolTimeout c;
     o_DialTimeout := DialTimeout c;
     o_ReadTimeout := ReadTimeout c;
     o_WriteTimeout := WriteTimeout c;
     o_MaxRetries := MaxRetries c;
     o_MinRetryBackoff := MinRetryBackoff c;
     o_MaxRetryBackoff := MaxRetryBackoff c;
     o_TLSConfig := None |}.

Definition withTLS (p : PoolOptions) (t : tlsConfig) : PoolOptions :=
  {| o_Username := o_Username p;
     o_Password := o_Password p;
     o_PoolSize := o_PoolSize p;
     o_MinIdleConns := o_MinIdleConns p;
     o_MaxIdleConns := o_MaxIdleConns p;
     o_PoolTimeout := o_PoolTimeout p;
     o_DialTimeout := o_DialTimeout p;
     o_ReadTimeout := o_ReadTimeout p;
     o_WriteTimeout := o_WriteTimeout p;
     o_MaxRetries := o_MaxRetries p;
     o_MinRetryBackoff := o_MinRetryBackoff p;
     o_MaxRetryBackoff := o_MaxRetryBackoff p;
     o_TLSConfig := Some t |}.

(** The block [if TLSConfig != nil && TLSConfig.Enabled { ... }]: the
    options with the TLS settings, or the error to return. *)
Definition configureTLS (w : World) (c : CommonConfig) (p : PoolOptions)
  : PoolOptions + error :=
  match TLS c with
  | Some t =>
      if tls_Enabled t then
        match buildTLSConfig w t with
        | (Some tc, None) => inl (withTLS p tc)
        | (_, Some err) => inr (Wrapf "failed to build TLS config" err)
        | (None, None) => inl p
        end
      else inl p
  | None => inl p
  end.

(** What a constructor returns: the events it caused, the client (nil is
    [None]) and the error. *)
Definition Built : Type := list event * (option Client * option error).

(** The common tail of the three constructors: build the backend, ping
    it, close it when the ping fails. *)
Definition connect (w : World) (rdb : Backend) (failure : string)
    (mk : Backend -> Client) : Built :=
  match Ping w rdb with
  | Some err =>
      ([EvNew rdb; EvPing rdb; EvClose rdb], (None, Some (Wrapf failure err)))
  | None => ([EvNew rdb; EvPing rdb], (Some (mk rdb), None))
  end.

(** [f.config.Single.Addr] on a nil [Single] panics. *)
Definition createSingleClient (w : World) (f : Factory) : Outcome Built :=
  match Single (f_config f) with
  | None => Panicked
  | Some s =>
      match configureTLS w (Common (f_config f)) (poolOptions (Common (f_config f))) with
      | inr err => Returned ([], (None, Some err))
      | inl pool =>
          let opts := {| opt_Addr := single_Addr s; opt_DB := single_DB s;
                         opt_pool := pool |} in
          Returned (connect w (NewClient opts) "failed to connect to redis"
                      (fun rdb => SingleClientOf rdb (f_config f)))
      end
  end.

Definition createClusterClient (w : World) (f : Factory) : Outcome Built :=
  match Cluster (f_config f) with
  | None => Panicked
  | Some cl =>
      match configureTLS w (Common (f_config f)) (poolOptions (Common (f_config f))) with
      | inr err => Returned ([], (None, Some err))
      | inl pool =>
          let opts := {| copt_Addrs := cluster_Addrs cl;
                         copt_MaxRedirects :=
                           if (cluster_MaxRedirects cl =? 0)%Z then 3
                           else cluster_MaxRedirects cl;
                         copt_ReadOnly := cluster_ReadOnly cl;
                         copt_RouteByLatency := cluster_RouteByLatency cl;
                         copt_RouteRandomly := cluster_RouteRandomly cl;
                         copt_pool := pool |} in
          Returned (connect w (NewClusterClient opts) "failed to connect to redis cluster"
                      (fun rdb => ClusterClientOf rdb (f_config f)))
      end
  end.

Definition createSentinelClient (w : World) (f : Factory) : Outcome Built :=
  match Sentinel (f_config f) with
  | None => Panicked
  | Some s =>
      match configureTLS w (Common (f_config f)) (poolOptions (Common (f_config f))) with
      | inr err => Returned ([], (None, Some err))
      | inl pool =>
          let opts := {| fopt_MasterName := sentinel_MasterName s;
                         fopt_SentinelAddrs := sentinel_Addrs s;
                         fopt_SentinelPassword := sentinel_SentinelPassword s;
                         fopt_DB := sentinel_DB s;
                         fopt_pool := pool |} in
          Returned (connect w (NewFailoverClient opts) "failed to connect to redis sentinel"
                      (fun rdb => SentinelClientOf rdb (f_config f)))
      end
  end.

(** [Factory.CreateClient]. *)
Definition CreateClient (w : World) (f : Factory) : Outcome Built :=
  if decide (mode (f_config f) = ModeSingle) then createSingleClient w f
  else if decide (mode (f_config f) = ModeCluster) then createClusterClient w f
  else if decide (mode (f_config f) = ModeSentinel) then createSentinelClient w f
  else Returned ([], (None, Some (Errorf ("unsupported mode: " +:+ mode (f_config f))))).

(** ** client.go: result handles and the [Pipeliner] methods *)

(** A [float64], kept as its 64 bits: the code only copies scores. *)
Definition float64 := Z.

Record ZMember := { Score : float64; Member : Iface }.

(** The five result-handle types. *)
Inductive CmdKind : Type :=
  | StringCmd | StatusCmd | IntCmd | BoolCmd | StringSliceCmd.

(** The [val] field of a handle or of a driver command. *)
Inductive Value : Type :=
  | VString (s : string)
  | VInt (n : Z)
  | VBool (b : bool)
  | VStrings (l : list string).

#[global] Instance Iface_eq_dec : EqDecision Iface.
Proof. solve_decision. Defined.
#[global] Instance Value_eq_dec : EqDecision Value.
Proof. solve_decision. Defined.
#[global] Instance CmdKind_eq_dec : EqDecision CmdKind.
Proof. solve_decision. Defined.

(** Go's zero value of the [val] field of each handle type. *)
Definition zero (k : CmdKind) : Value :=
  match k with
  | StringCmd | StatusCmd => VString ""
  | IntCmd => VInt 0
  | BoolCmd => VBool false
  | StringSliceCmd => VStrings []
  end.

(** One call of a [Pipeliner] method, with its arguments. *)
Inductive Call : Type :=
  | CallGet (key : string)
  | CallSet (key : string) (value : Iface) (expiration : Duration)
  | CallSetNX (key : string) (value : Iface) (expiration : Duration)
  | CallIncr (key : string)
  | CallDecr (key : string)
  | CallHGet (key field : string)
  | CallHSet (key field : string) (value : Iface)
  | CallHDel (key : string) (fields : list string)
  | CallLPush (key : string) (values : list Iface)
  | CallRPush (key : string) (values : list Iface)
  | CallLPop (key : string)
  | CallRPop (key : string)
  | CallSAdd (key : string) (members : list Iface)
  | CallSRem (key : string) (members : list Iface)
  | CallSMembers (key : string)
  | CallZAdd (key : string) (members : list ZMember)
  | CallZRem (key : string) (members : list Iface)
  | CallZRange (key : string) (start stop : Z)
  | CallDel (keys : list string)
  | CallExists (keys : list string)
  | CallExpire (key : string) (expiration : Duration).

(** The handle type each method returns. *)
Definition kindOf (c : Call) : CmdKind :=
  match c with
  | CallGet _ | CallHGet _ _ | CallLPop _ | CallRPop _ => StringCmd
  | CallSet _ _ _ => StatusCmd
  | CallSetNX _ _ _ | CallExpire _ _ => BoolCmd
  | CallSMembers _ | CallZRange _ _ _ => StringSliceCmd
  | CallIncr _ | CallDecr _ | CallHSet _ _ _ | CallHDel _ _
  | CallLPush _ _ | CallRPush _ _ | CallSAdd _ _ | CallSRem _ _
  | CallZAdd _ _ | CallZRem _ _ | CallDel _ | CallExists _ => IntCmd
  end.

(** The call each method makes on the driver's pipeline [p.pipe]: keys
    prefixed, the expiration of [Set] and [SetNX] resolved, the
    members of [ZAdd] copied into [redis.Z]. *)
Definition driverCall (cfg : Config) (c : Call) : Call :=
  match c with
  | CallGet key => CallGet (GetKeyWithPrefix cfg key)
  | CallSet key value expiration =>
      CallSet (GetKeyWithPrefix cfg key) value (GetTTL cfg expiration)
  | CallSetNX key value expiration =>
      CallSetNX (GetKeyWithPrefix cfg key) value (GetTTL cfg expiration)
  | CallIncr key => CallIncr (GetKeyWithPrefix cfg key)
  | CallDecr key => CallDecr (GetKeyWithPrefix cfg key)
  | CallHGet key field => CallHGet (GetKeyWithPrefix cfg key) field
  | CallHSet key field value => CallHSet (GetKeyWithPrefix cfg key) field value
  | CallHDel key fields => CallHDel (GetKeyWithPrefix cfg key) fields
  | CallLPush key values => CallLPush (GetKeyWithPrefix cfg key) values
  | CallRPush key values => CallRPush (GetKeyWithPrefix cfg key) values
  | CallLPop key => CallLPop (GetKeyWithPrefix cfg key)
  | CallRPop key => CallRPop (GetKeyWithPrefix cfg key)
  | CallSAdd key members => CallSAdd (GetKeyWithPrefix cfg key) members
  | CallSRem key members => CallSRem (GetKeyWithPrefix cfg key) members
  | CallSMembers key => CallSMembers (GetKeyWithPrefix cfg key)
  | CallZAdd key members =>
      CallZAdd (GetKeyWithPrefix cfg key)
        ((fun m => {| Score := Score m; Member := Member m |}) <$> members)
  | CallZRem key members => CallZRem (GetKeyWithPrefix cfg key) members
  | CallZRange key start stop => CallZRange (GetKeyWithPrefix cfg key) start stop
  | CallDel keys => CallDel (GetKeyWithPrefix cfg <$> keys)
  | CallExists keys => CallExists (GetKeyWithPrefix cfg <$> keys)
  | CallExpire key expiration => CallExpire (GetKeyWithPrefix cfg key) expiration
  end.

(** The driver's command object ([*redis.StringCmd] and the like): the
    call it carries and the [val] and [err] the round trip fills in. *)
Record Cmder := {
  cmd_call : Call;
  cmd_val : Value;
  cmd_err : option error
}.

(** The wrapper's handle ([*StringCmd], [*StatusCmd], [*IntCmd],
    [*BoolCmd], [*StringSliceCmd]): the two fields [val] and [err]. *)
Record Handle := {
  h_kind : CmdKind;
  val : Value;
  err : option error
}.

Definition Handle_Val (h : Handle) : Value := val h.

(** The objects that live behind pointers. *)
Inductive object : Type :=
  | ODriverCmd (c : Cmder)
  | OHandle (h : Handle).

Abbreviation loc := nat.

(** The Go heap and the driver's pipeline: [cmds] is the queue
    [pipe.cmds] of pointers to command objects, [brk] the next free
    address. *)
Record State := {
  heap : gmap loc object;
  cmds : list loc;
  brk : loc
}.

Definition emptyState : State := {| heap := ∅; cmds := []; brk := 0%nat |}.

(** [new(T)]: store an object at a fresh address. *)
Definition alloc (o : object) (st : State) : loc * State :=
  (brk st, {| heap := <[brk st := o]> (heap st); cmds := cmds st; brk := S (brk st) |}).

(** A typed method of the driver's pipeline, [p.pipe.Get(ctx, key)] and
    the like: a new command object, not yet executed, appended to the
    queue. *)
Definition pipe_call (c : Call) (st : State) : loc * State :=
  let '(l, st1) :=
    alloc (ODriverCmd {| cmd_call := c; cmd_val := zero (kindOf c); cmd_err := None |}) st in
  (l, {| heap := heap st1; cmds := cmds st1 ++ [l]; brk := brk st1 |}).

(** Reading [cmd.Val()] and [cmd.Err()] through a command pointer. *)
Definition cmd_Val (st : State) (l : loc) (k : CmdKind) : Value :=
  match heap st !! l with
  | Some (ODriverCmd c) => cmd_val c
  | _ => zero k
  end.

Definition cmd_Err (st : State) (l : loc) : option error :=
  match heap st !! l with
  | Some (ODriverCmd c) => cmd_err c
  | _ => None
  end.

(** Every enqueue method of [SinglePipeliner] and [ClusterPipeliner]:
    transform the arguments, call the driver's pipeline, and return
    [&XCmd{val: cmd.Val(), err: cmd.Err()}]. *)
Definition enqueue (cfg : Config) (c : Call) (st : State) : loc * State :=
  let '(cmd, st1) := pipe_call (driverCall cfg c) st in
  alloc (OHandle {| h_kind := kindOf c;
                    val := cmd_Val st1 cmd (kindOf c);
                    err := cmd_Err st1 cmd |}) st1.

(** What one round trip answers: for each queued command its value and
    error, and the error [pipe.Exec] itself returns. *)
Record RoundTrip := {
  rt_replies : list (Value * option error);
  rt_err : option error
}.

(** The driver writes each answer into its command object. *)
Definition setReply (r : Value * option error) (o : object) : object :=
  match o with
  | ODriverCmd c => ODriverCmd {| cmd_call := cmd_call c; cmd_val := fst r; cmd_err := snd r |}
  | OHandle h => OHandle h
  end.

Fixpoint writeReplies (ls : list loc) (rs : list (Value * option error))
    (h : gmap loc object) : gmap loc object :=
  match ls, rs with
  | l :: ls', r :: rs' => writeReplies ls' rs' (alter (setReply r) l h)
  | _, _ => h
  end.

(** The calls queued in the pipeline, in order. *)
Definition queued (st : State) : list Call :=
  omap (fun l => match heap st !! l with
                 | Some (ODriverCmd c) => Some (cmd_call c)
                 | _ => None
                 end) (cmds st).

Section Pipeline.

(** The store behind the driver: what it answers to a batch. *)
Variable server : list Call -> RoundTrip.

(** The driver's [pipe.Exec(ctx)]: take the queue, empty it, run the
    round trip, return the command pointers and the error. *)
Definition pipe_Exec (st : State) : (list loc * option error) * State :=
  let rt := server (queued st) in
  ((cmds st, rt_err rt),
   {| heap := writeReplies (cmds st) (rt_replies rt) (heap st);
      cmds := [];
      brk := brk st |}).

(** [SinglePipeliner.Exec]: the results are the command pointers. *)
Definition Exec (st : State) : (option (list loc) * option error) * State :=
  let '((cs, e), st1) := pipe_Exec st in
  match e with
  | Some e => ((None, Some e), st1)
  | None => ((Some cs, None), st1)
  end.

(** [SinglePipeliner.Discard]: the driver drops its queue. *)
Definition Discard (st : State) : option error * State :=
  (None, {| heap := heap st; cmds := []; brk := brk st |}).

(** [SinglePipeliner.Close] does nothing. *)
Definition Close (st : State) : option error * State := (None, st).

(** A caller's use of one pipeline. *)
Inductive op : Type :=
  | OpEnqueue (c : Call)
  | OpExec
  | OpDiscard
  | OpClose.

Definition step (cfg : Config) (o : op) (st : State) : State :=
  match o with
  | OpEnqueue c => snd (enqueue cfg c st)
  | OpExec => snd (Exec st)
  | OpDiscard => snd (Discard st)
  | OpClose => snd (Close st)
  end.

Definition run (cfg : Config) (ops : list op) (st : State) : State :=
  foldl (fun st o => step cfg o st) st ops.

(** Enqueue a batch on a pipeline; the handles come back in order. *)
Fixpoint enqueueAll (cfg : Config) (cs : list Call) (st : State)
    : list loc * State :=
  match cs with
  | [] => ([], st)
  | c :: cs' =>
      let '(h, st1) := enqueue cfg c st in
      let '(hs, st2) := enqueueAll cfg cs' st1 in
      (h :: hs, st2)
  end.

End Pipeline.

(** Reading a handle through its pointer. *)
Definition handleAt (st : State) (l : loc) : option Handle :=
  match heap st !! l with
  | Some (OHandle h) => Some h
  | _ => None
  end.

(** Reading a driver command through its pointer. *)
Definition cmderAt (st : State) (l : loc) : option Cmder :=
  match heap st !! l with
  | Some (ODriverCmd c) => Some c
  | _ => None
  end.

(** ** Specification-side definitions *)

(** The condition the specification gives for a valid configuration:
    the tag is one of the three, and the sub-configuration of that tag
    is present and non-empty. *)
Definition well_configured (c : Config) : Prop :=
  (mode c = ModeSingle /\
     exists s, Single c = Some s /\ single_Addr s <> "") \/
  (mode c = ModeCluster /\
     exists cl, Cluster c = Some cl /\ cluster_Addrs cl <> []) \/
  (mode c = ModeSentinel /\
     exists s, Sentinel c = Some s /\ sentinel_Addrs s <> [] /\
               sentinel_MasterName s <> "").

(** [names_missing c e]: [e] is the configuration error that names what
    [c] lacks. *)
Inductive names_missing (c : Config) : error -> Prop :=
  | nm_mode :
      mode c <> ModeSingle -> mode c <> ModeCluster -> mode c <> ModeSentinel ->
      names_missing c ErrInvalidMode
  | nm_single :
      mode c = ModeSingle -> Single c = None ->
      names_missing c ErrMissingSingleConfig
  | nm_addr s :
      mode c = ModeSingle -> Single c = Some s -> single_Addr s = "" ->
      names_missing c ErrMissingAddr
  | nm_cluster :
      mode c = ModeCluster -> Cluster c = None ->
      names_missing c ErrMissingClusterConfig
  | nm_cluster_addrs cl :
      mode c = ModeCluster -> Cluster c = Some cl -> cluster_Addrs cl = [] ->
      names_missing c ErrMissingAddrs
  | nm_sentinel :
      mode c = ModeSentinel -> Sentinel c = None ->
      names_missing c ErrMissingSentinelConfig
  | nm_sentinel_addrs s :
      mode c = ModeSentinel -> Sentinel c = Some s -> sentinel_Addrs s = [] ->
      names_missing c ErrMissingAddrs
  | nm_master s :
      mode c = ModeSentinel -> Sentinel c = Some s -> sentinel_Addrs s <> [] ->
      sentinel_MasterName s = "" ->
      names_missing c ErrMissingMasterName.

(** The forwarded argument list of [MSet], pair by pair: a pair with a
    string key is forwarded with its key prefixed, a pair whose key is
    not a string panics, and a trailing unpaired argument leaves a nil. *)
Fixpoint MSet_by_pairs (c : Config) (pairs : list Iface) : Outcome (list Iface) :=
  match pairs with
  | [] => Returned []
  | [_] => Returned [INil]
  | IString key :: v :: rest =>
      match MSet_by_pairs c rest with
      | Returned out => Returned (IString (GetKeyWithPrefix c key) :: v :: out)
      | Panicked => Panicked
      end
  | _ :: _ :: _ => Panicked
  end.

(** ** Concrete configurations and stores used in the examples *)

(** The configuration of the specification's scenario: prefix ["app:"]
    and a default TTL of thirty minutes. *)
Definition appConfig : Config :=
  {| mode := ModeSingle;
     Single := Single DefaultConfig;
     Cluster := None;
     Sentinel := None;
     Common :=
       {| Password := ""; Username := "";
          PoolSize := 10; MinIdleConns := 2; MaxIdleConns := 5;
          ConnMaxAge := Hour; PoolTimeout := Second * 4; IdleTimeout := Minute * 5;
          DialTimeout := Second * 5; ReadTimeout := Second * 3;
          WriteTimeout := Second * 3; MaxRetries := 3;
          MinRetryBackoff := Millisecond * 8; MaxRetryBackoff := Millisecond * 512;
          KeyPrefix := "app:";
          DefaultTTL := Minute * 30;
          TLS := None; EnableMetrics := false; EnableTracing := false |} |}.

(** A store that holds no key at all, and lists the single key ["app:"]. *)
Definition emptyStore : Redis :=
  {| redis_Get := fun _ => mkReply "" (Some RedisNil);
     redis_Set := fun _ _ _ => mkReply "OK" None;
     redis_MSet := fun _ => mkReply "OK" None;
     redis_Keys := fun _ => mkReply ["app:"; "app:k1"] None;
     redis_Scan := fun _ _ _ => mkReply (["app:"; "app:k1"], 0) None |}.

Definition appClient : RedisClient.t :=
  {| RedisClient.client := emptyStore; RedisClient.config := appConfig |}.




(** A world in which every backend answers the probe. *)
Definition reachable : World :=
  {| LoadX509KeyPair := fun _ _ => ("", None);
     Ping := fun _ => None |}.


(** ** Pipeline states and example batches *)

(** Every address in use, and every queued pointer, lies below the
    allocation pointer. *)
Definition bounded (st : State) : Prop :=
  (forall l, is_Some (heap st !! l) -> (l < brk st)%nat) /\
  (forall l, l ∈ cmds st -> (l < brk st)%nat).

(** The handle an enqueue method builds from a command that has not
    been executed: the zero value and a nil error. *)
Definition unresolved (k : CmdKind) : Handle :=
  {| h_kind := k; val := zero k; err := None |}.

(** The command object of a call after the round trip answered [r]. *)
Definition answered (c : Call) (r : Value * option error) : Cmder :=
  {| cmd_call := c; cmd_val := fst r; cmd_err := snd r |}.

(** The batch of [TestPipelineBasicOperations], shortened: a set and a
    get of the same key, and a store that answers both. *)
Definition basicBatch : list Call :=
  [CallSet "pipe:key1" (IString "value1") 0; CallGet "pipe:key1"].

Definition basicServer (_ : list Call) : RoundTrip :=
  {| rt_replies := [(VString "OK", None); (VString "value1", None)];
     rt_err := None |}.

(** The batch of [TestPipelineErrorHandling]: a set, a list push on the
    key that now holds a string, and a get; the store answers the push
    with a wrong-type error and the round trip itself succeeds. *)
Definition errorBatch : list Call :=
  [CallSet "pipe:error:key" (IString "string_value") 0;
   CallLPush "pipe:error:key" [IString "item"];
   CallGet "pipe:error:key"].

Definition WRONGTYPE : error :=
  DriverError "WRONGTYPE Operation against a key holding the wrong kind of value".

Definition errorServer (_ : list Call) : RoundTrip :=
  {| rt_replies := [(VString "OK", None);
                    (VInt 0, Some WRONGTYPE);
                    (VString "string_value", None)];
     rt_err := None |}.

(** Enqueue a batch on a fresh pipeline and execute it: the handles the
    caller holds, what [Exec] returned, and the final state. *)
Definition runBatch (server : list Call -> RoundTrip) (cfg : Config)
    (cs : list Call)
  : list loc * (option (list loc) * option error) * State :=
  let '(hs, st1) := enqueueAll cfg cs emptyState in
  let '(res, st2) := Exec server st1 in
  (hs, res, st2).

(** The command object a typed pipeline method creates. *)
Definition queuedCmd (cfg : Config) (c : Call) : Cmder :=
  {| cmd_call := driverCall cfg c;
     cmd_val := zero (kindOf (driverCall cfg c));
     cmd_err := None |}.

(** ** errors.go: the classification helpers *)

Definition redisErrors : list error :=
  [ErrInvalidMode; ErrMissingSingleConfig; ErrMissingClusterConfig;
   ErrMissingSentinelConfig; ErrMissingAddr; ErrMissingAddrs;
   ErrMissingMasterName; ErrClientClosed; ErrNilResult;
   ErrKeyNotFound; ErrInvalidType; ErrScriptNotFound;
   ErrConnectionFailed; ErrConnectionTimeout; ErrPoolExhausted;
   ErrAuthFailed; ErrClusterDown; ErrNoReachableNode;
   ErrTooManyRedirects; ErrSentinelNoMaster; ErrSentinelMasterDown;
   ErrNoSentinelAvailable; ErrPipelineEmpty; ErrPipelineClosed].

Definition connectionErrors : list error :=
  [ErrConnectionFailed; ErrConnectionTimeout; ErrPoolExhausted; ErrAuthFailed].

Definition clusterErrors : list error :=
  [ErrClusterDown; ErrNoReachableNode; ErrTooManyRedirects].

Definition sentinelErrors : list error :=
  [ErrSentinelNoMaster; ErrSentinelMasterDown; ErrNoSentinelAvailable].

(** The loop the four helpers share:
    [for _, t := range targets { if errors.Is(err, t) { return true } }
     return false]. *)
Fixpoint anyIs (err : error) (targets : list error) : bool :=
  match targets with
  | [] => false
  | t :: targets' => if errors_Is err t then true else anyIs err targets'
  end.

Definition IsRedisError (err : option error) : bool :=
  match err with
  | None => false
  | Some e => anyIs e redisErrors
  end.

Definition IsConnectionError (err : option error) : bool :=
  match err with
  | None => false
  | Some e => anyIs e connectionErrors
  end.

Definition IsClusterError (err : option error) : bool :=
  match err with
  | None => false
  | Some e => anyIs e clusterErrors
  end.

Definition IsSentinelError (err : option error) : bool :=
  match err with
  | None => false
  | Some e => anyIs e sentinelErrors
  end.

(** ** factory.go: the remaining functions *)

Definition GetConfig (f : Factory) : Config := f_config f.

(** [Factory.UpdateConfig]: the factory after the call and the error. *)
Definition UpdateConfig (f : Factory) (config : option Config)
  : Factory * option error :=
  match config with
  | None => (f, Some (Errorf "config cannot be nil"))
  | Some c =>
      match Validate c with
      | Some err => (f, Some (Wrapf "invalid config" err))
      | None => ({| f_config := c |}, None)
      end
  end.

(** [config.Common.Password = password]. *)
Definition setPassword (c : CommonConfig) (password : string) : CommonConfig :=
  {| Password := password; Username := Username c;
     PoolSize := PoolSize c; MinIdleConns := MinIdleConns c;
     MaxIdleConns := MaxIdleConns c; ConnMaxAge := ConnMaxAge c;
     PoolTimeout := PoolTimeout c; IdleTimeout := IdleTimeout c;
     DialTimeout := DialTimeout c; ReadTimeout := ReadTimeout c;
     WriteTimeout := WriteTimeout c; MaxRetries := MaxRetries c;
     MinRetryBackoff := MinRetryBackoff c; MaxRetryBackoff := MaxRetryBackoff c;
     KeyPrefix := KeyPrefix c; DefaultTTL := DefaultTTL c; TLS := TLS c;
     EnableMetrics := EnableMetrics c; EnableTracing := EnableTracing c |}.

(** The tail of the four convenience functions:
    [factory, err := NewFactory(config); if err != nil { return nil, err };
     return factory.CreateClient()]. *)
Definition createFrom (w : World) (config : option Config) : Outcome Built :=
  match NewFactory config with
  | (_, Some err) => Returned ([], (None, Some err))
  | (Some factory, None) => CreateClient w factory
  | (None, None) => Panicked
  end.

(** The convenience functions of the package; [cache.NewClusterClient]
    is not the driver's [redis.NewClusterClient]. *)
Module Cache.

(** [NewSingleClient]: the fields of [DefaultConfig().Single] are
    assigned through the pointer, which [DefaultConfig] sets. *)
Definition NewSingleClient (w : World) (addr : string) (db : Z) (password : string)
  : Outcome Built :=
  match Single DefaultConfig with
  | None => Panicked
  | Some _ =>
      createFrom w
        (Some {| mode := ModeSingle;
                 Single := Some {| single_Addr := addr; single_DB := db |};
                 Cluster := Cluster DefaultConfig;
                 Sentinel := Sentinel DefaultConfig;
                 Common := setPassword (Common DefaultConfig) password |})
  end.

Definition NewClusterClient (w : World) (addrs : list string) (password : string)
  : Outcome Built :=
  createFrom w
    (Some {| mode := ModeCluster;
             Single := Single DefaultConfig;
             Cluster := Some {| cluster_Addrs := addrs;
                                cluster_MaxRedirects := 3;
                                cluster_ReadOnly := false;
                                cluster_RouteByLatency := false;
                                cluster_RouteRandomly := false |};
             Sentinel := Sentinel DefaultConfig;
             Common := setPassword (Common DefaultConfig) password |}).

Definition NewSentinelClient (w : World) (sentinelAddrs : list string)
    (masterName : string) (db : Z) (password : string) : Outcome Built :=
  createFrom w
    (Some {| mode := ModeSentinel;
             Single := Single DefaultConfig;
             Cluster := Cluster DefaultConfig;
             Sentinel := Some {| sentinel_Addrs := sentinelAddrs;
                                 sentinel_MasterName := masterName;
                                 sentinel_DB := db;
                                 sentinel_SentinelPassword := "" |};
             Common := setPassword (Common DefaultConfig) password |}).

Definition NewClientFromConfig (w : World) (config : option Config) : Outcome Built :=
  createFrom w config.

End Cache.

(** The backend a constructor built, if it built one. *)
Definition builtBackend (b : Built) : option Backend :=
  match fst b with
  | EvNew rdb :: _ => Some rdb
  | _ => None
  end.

(** The pool options of a backend. *)
Definition backend_pool (b : Backend) : PoolOptions :=
  match b with
  | NewClient o => opt_pool o
  | NewClusterClient o => copt_pool o
  | NewFailoverClient o => fopt_pool o
  end.

(** A world in which the certificate files cannot be read. *)
Definition noCertificates : World :=
  {| LoadX509KeyPair := fun _ _ => ("", Some (DriverError "open cert.pem: no such file"));
     Ping := fun _ => None |}.

(** [DefaultConfig] with TLS switched on and a key pair named. *)
Definition tlsConfigExample : Config :=
  {| mode := ModeSingle;
     Single := Single DefaultConfig;
     Cluster := None;
     Sentinel := None;
     Common :=
       {| Password := ""; Username := "";
          PoolSize := 10; MinIdleConns := 2; MaxIdleConns := 5;
          ConnMaxAge := Hour; PoolTimeout := Second * 4; IdleTimeout := Minute * 5;
          DialTimeout := Second * 5; ReadTimeout := Second * 3;
          WriteTimeout := Second * 3; MaxRetries := 3;
          MinRetryBackoff := Millisecond * 8; MaxRetryBackoff := Millisecond * 512;
          KeyPrefix := ""; DefaultTTL := Hour * 24;
          TLS := Some {| tls_Enabled := true; tls_InsecureSkipVerify := false;
                         tls_CertFile := "cert.pem"; tls_KeyFile := "key.pem";
                         tls_CAFile := "ca.pem"; tls_ServerName := "redis.local" |};
          EnableMetrics := false; EnableTracing := false |} |}.


(** ** single_client.go and client.go: the remaining key-bearing commands *)

(** The driver's [redis.Z]. *)
Record redisZ := { z_Score : float64; z_Member : Iface }.

(** The loop of every multi-key command:
    [prefixedKeys := make([]string, len(keys));
     for i, key := range keys { prefixedKeys[i] = GetKeyWithPrefix(key) }]. *)
Fixpoint prefixKeys_loop (c : Config) (i : nat) (keys : list string)
    (prefixedKeys : list string) : list string :=
  match keys with
  | [] => prefixedKeys
  | key :: keys' =>
      prefixKeys_loop c (S i) keys' (<[i := GetKeyWithPrefix c key]> prefixedKeys)
  end.

Definition prefixKeys (c : Config) (keys : list string) : list string :=
  prefixKeys_loop c 0 keys (replicate (length keys) "").

(** The loop of [ZAdd]: [redisMembers[i] = redis.Z{Score, Member}]. *)
Fixpoint redisMembers_loop (i : nat) (members : list ZMember)
    (redisMembers : list redisZ) : list redisZ :=
  match members with
  | [] => redisMembers
  | member :: members' =>
      redisMembers_loop (S i) members'
        (<[i := {| z_Score := Score member; z_Member := Member member |}]> redisMembers)
  end.

Definition redisMembers (members : list ZMember) : list redisZ :=
  redisMembers_loop 0 members
    (replicate (length members) {| z_Score := 0; z_Member := INil |}).

(** The loop of [ZRangeWithScores]: [members[i] = ZMember{Score, Member}]. *)
Fixpoint members_loop (i : nat) (result : list redisZ)
    (members : list ZMember) : list ZMember :=
  match result with
  | [] => members
  | z :: result' =>
      members_loop (S i) result'
        (<[i := {| Score := z_Score z; Member := z_Member z |}]> members)
  end.

Definition membersOf (result : list redisZ) : list ZMember :=
  members_loop 0 result (replicate (length result) {| Score := 0; Member := INil |}).

(** The driver commands these methods call. *)
Record RedisMore := {
  redis_SetNX : string -> Iface -> Duration -> Reply bool;
  redis_GetSet : string -> Iface -> Reply string;
  redis_MGet : list string -> Reply (list Iface);
  redis_HGet : string -> string -> Reply string;
  redis_LPop : string -> Reply string;
  redis_RPop : string -> Reply string;
  redis_LIndex : string -> Z -> Reply string;
  redis_SPop : string -> Reply string;
  redis_SRandMember : string -> Reply string;
  redis_SInter : list string -> Reply (list string);
  redis_SUnion : list string -> Reply (list string);
  redis_SDiff : list string -> Reply (list string);
  redis_ZAdd : string -> list redisZ -> Reply Z;
  redis_ZRangeWithScores : string -> Z -> Z -> Reply (list redisZ);
  redis_ZRevRangeWithScores : string -> Z -> Z -> Reply (list redisZ);
  redis_Del : list string -> Reply Z;
  redis_Exists : list string -> Reply Z;
  redis_Expire : string -> Duration -> Reply bool;
  redis_Eval : string -> list string -> list Iface -> Reply Iface;
  redis_EvalSha : string -> list string -> list Iface -> Reply Iface
}.

(** These methods are the same, word for word, in [SingleClient] and
    [SentinelClient]. *)
Module Commands.

Record t := { client : RedisMore; config : Config }.

Definition SetNX (c : t) (key : string) (value : Iface) (expiration : Duration)
  : bool * option error :=
  let key := GetKeyWithPrefix (config c) key in
  let expiration := GetTTL (config c) expiration in
  Result (redis_SetNX (client c) key value expiration).

Definition GetSet (c : t) (key : string) (value : Iface) : string * option error :=
  let key := GetKeyWithPrefix (config c) key in
  let result := redis_GetSet (client c) key value in
  if decide (rErr result = Some RedisNil) then ("", Some ErrKeyNotFound)
  else Result result.

Definition MGet (c : t) (keys : list string) : list Iface * option error :=
  Result (redis_MGet (client c) (prefixKeys (config c) keys)).

Definition HGet (c : t) (key field : string) : string * option error :=
  let key := GetKeyWithPrefix (config c) key in
  let result := redis_HGet (client c) key field in
  if decide (rErr result = Some RedisNil) then ("", Some ErrKeyNotFound)
  else Result result.

Definition LPop (c : t) (key : string) : string * option error :=
  let key := GetKeyWithPrefix (config c) key in
  let result := redis_LPop (client c) key in
  if decide (rErr result = Some RedisNil) then ("", Some ErrKeyNotFound)
  else Result result.

Definition RPop (c : t) (key : string) : string * option error :=
  let key := GetKeyWithPrefix (config c) key in
  let result := redis_RPop (client c) key in
  if decide (rErr result = Some RedisNil) then ("", Some ErrKeyNotFound)
  else Result result.

Definition LIndex (c : t) (key : string) (index : Z) : string * option error :=
  let key := GetKeyWithPrefix (config c) key in
  let result := redis_LIndex (client c) key index in
  if decide (rErr result = Some RedisNil) then ("", Some ErrKeyNotFound)
  else Result result.

Definition SPop (c : t) (key : string) : string * option error :=
  let key := GetKeyWithPrefix (config c) key in
  let result := redis_SPop (client c) key in
  if decide (rErr result = Some RedisNil) then ("", Some ErrKeyNotFound)
  else Result result.

Definition SRandMember (c : t) (key : string) : string * option error :=
  let key := GetKeyWithPrefix (config c) key in
  let result := redis_SRandMember (client c) key in
  if decide (rErr result = Some RedisNil) then ("", Some ErrKeyNotFound)
  else Result result.

Definition SInter (c : t) (keys : list string) : list string * option error :=
  Result (redis_SInter (client c) (prefixKeys (config c) keys)).

Definition SUnion (c : t) (keys : list string) : list string * option error :=
  Result (redis_SUnion (client c) (prefixKeys (config c) keys)).

Definition SDiff (c : t) (keys : list string) : list string * option error :=
  Result (redis_SDiff (client c) (prefixKeys (config c) keys)).

Definition ZAdd (c : t) (key : string) (members : list ZMember) : Z * option error :=
  let key := GetKeyWithPrefix (config c) key in
  Result (redis_ZAdd (client c) key (redisMembers members)).

Definition ZRangeWithScores (c : t) (key : string) (start stop : Z)
  : option (list ZMember) * option error :=
  let key := GetKeyWithPrefix (config c) key in
  let r := redis_ZRangeWithScores (client c) key start stop in
  match rErr r with
  | Some err => (None, Some err)
  | None => (Some (membersOf (rVal r)), None)
  end.

Definition ZRevRangeWithScores (c : t) (key : string) (start stop : Z)
  : option (list ZMember) * option error :=
  let key := GetKeyWithPrefix (config c) key in
  let r := redis_ZRevRangeWithScores (client c) key start stop in
  match rErr r with
  | Some err => (None, Some err)
  | None => (Some (membersOf (rVal r)), None)
  end.

Definition Del (c : t) (keys : list string) : Z * option error :=
  Result (redis_Del (client c) (prefixKeys (config c) keys)).

Definition Exists (c : t) (keys : list string) : Z * option error :=
  Result (redis_Exists (client c) (prefixKeys (config c) keys)).

Definition Expire (c : t) (key : string) (expiration : Duration) : bool * option error :=
  let key := GetKeyWithPrefix (config c) key in
  Result (redis_Expire (client c) key expiration).

Definition Eval (c : t) (script : string) (keys : list string) (args : list Iface)
  : Iface * option error :=
  Result (redis_Eval (client c) script (prefixKeys (config c) keys) args).

Definition EvalSha (c : t) (sha1 : string) (keys : list string) (args : list Iface)
  : Iface * option error :=
  Result (redis_EvalSha (client c) sha1 (prefixKeys (config c) keys) args).

End Commands.

(** The arguments of [MSet] for the keys [ks] and the values [vs]:
    [k1, v1, k2, v2, ...]. *)
Fixpoint pairsOf (ks : list string) (vs : list Iface) : list Iface :=
  match ks, vs with
  | k :: ks', v :: vs' => IString k :: v :: pairsOf ks' vs'
  | _, _ => []
  end.

(** A store that answers every lookup with [redis.Nil] and every other
    command with a zero result. *)
Definition missStore : RedisMore :=
  {| redis_SetNX := fun _ _ _ => mkReply true None;
     redis_GetSet := fun _ _ => mkReply "" (Some RedisNil);
     redis_MGet := fun _ => mkReply [] None;
     redis_HGet := fun _ _ => mkReply "" (Some RedisNil);
     redis_LPop := fun _ => mkReply "" (Some RedisNil);
     redis_RPop := fun _ => mkReply "" (Some RedisNil);
     redis_LIndex := fun _ _ => mkReply "" (Some RedisNil);
     redis_SPop := fun _ => mkReply "" (Some RedisNil);
     redis_SRandMember := fun _ => mkReply "" (Some RedisNil);
     redis_SInter := fun _ => mkReply [] None;
     redis_SUnion := fun _ => mkReply [] None;
     redis_SDiff := fun _ => mkReply [] None;
     redis_ZAdd := fun _ _ => mkReply 0 None;
     redis_ZRangeWithScores := fun _ _ _ =>
       mkReply [{| z_Score := 85; z_Member := IString "B" |};
                {| z_Score := 92; z_Member := IString "C" |};
                {| z_Score := 100; z_Member := IString "A" |}] None;
     redis_ZRevRangeWithScores := fun _ _ _ => mkReply [] (Some (DriverError "i/o timeout"));
     redis_Del := fun _ => mkReply 0 None;
     redis_Exists := fun _ => mkReply 0 None;
     redis_Expire := fun _ _ => mkReply false None;
     redis_Eval := fun _ _ _ => mkReply INil None;
     redis_EvalSha := fun _ _ _ => mkReply INil None |}.

Definition appCommands : Commands.t :=
  {| Commands.client := missStore; Commands.config := appConfig |}.

(** A single-node configuration with a negative database index and
    other pool settings. *)
Definition negativeDBConfig : Config :=
  {| mode := ModeSingle;
     Single := Some {| single_Addr := "localhost:6379"; single_DB := -1 |};
     Cluster := None;
     Sentinel := None;
     Common := Common appConfig |}.

(** A factory after a series of [UpdateConfig] calls. *)
Definition updateAll (f : Factory) (configs : list (option Config)) : Factory :=
  foldl (fun f config => fst (UpdateConfig f config)) f configs.

(** A configuration with the settings that no constructor reads set to
    their zero values: the connection age, the idle timeout, the two
    monitoring switches and the CA file. *)
Definition withoutUnread (c : Config) : Config :=
  {| mode := mode c;
     Single := Single c;
     Cluster := Cluster c;
     Sentinel := Sentinel c;
     Common :=
       {| Password := Password (Common c); Username := Username (Common c);
          PoolSize := PoolSize (Common c);
          MinIdleConns := MinIdleConns (Common c);
          MaxIdleConns := MaxIdleConns (Common c);
          ConnMaxAge := 0;
          PoolTimeout := PoolTimeout (Common c);
          IdleTimeout := 0;
          DialTimeout := DialTimeout (Common c);
          ReadTimeout := ReadTimeout (Common c);
          WriteTimeout := WriteTimeout (Common c);
          MaxRetries := MaxRetries (Common c);
          MinRetryBackoff := MinRetryBackoff (Common c);
          MaxRetryBackoff := MaxRetryBackoff (Common c);
          KeyPrefix := KeyPrefix (Common c);
          DefaultTTL := DefaultTTL (Common c);
          TLS := (fun t => {| tls_Enabled := tls_Enabled t;
                              tls_InsecureSkipVerify := tls_InsecureSkipVerify t;
                              tls_CertFile := tls_CertFile t;
                              tls_KeyFile := tls_KeyFile t;
                              tls_CAFile := "";
                              tls_ServerName := tls_ServerName t |}) <$> TLS (Common c);
          EnableMetrics := false;
          EnableTracing := false |} |}.

(** What the outside world sees of a constructor's run: the events, the
    backend inside the returned client, and the error. *)
Definition observable (r : Outcome Built) : Outcome (list event * option Backend * option error) :=
  match r with
  | Panicked => Panicked
  | Returned b => Returned (fst b, client_backend <$> fst (snd b), snd (snd b))
  end.

(** The conversions the two sorted-set loops perform, element by
    element. *)
Definition toRedisZ (m : ZMember) : redisZ :=
  {| z_Score := Score m; z_Member := Member m |}.

Definition toZMember (z : redisZ) : ZMember :=
  {| Score := z_Score z; Member := z_Member z |}.

(** What a command that translates a miss returns for the store's
    answer [r]. *)
Definition missTranslated (r : Reply string) (out : string * option error) : Prop :=
  (rErr r = Some RedisNil -> out = ("", Some ErrKeyNotFound)) /\
  (rErr r <> Some RedisNil -> out = Result r) /\
  snd out <> Some RedisNil /\
  (snd out = None -> fst out = rVal r /\ rErr r = None).

(** The [key] and [keys] parameters of a [Pipeliner] method. *)
Definition callKeys (c : Call) : list string :=
  match c with
  | CallGet key | CallSet key _ _ | CallSetNX key _ _ | CallIncr key | CallDecr key
  | CallHGet key _ | CallHSet key _ _ | CallHDel key _
  | CallLPush key _ | CallRPush key _ | CallLPop key | CallRPop key
  | CallSAdd key _ | CallSRem key _ | CallSMembers key
  | CallZAdd key _ | CallZRem key _ | CallZRange key _ _
  | CallExpire key _ => [key]
  | CallDel keys | CallExists keys => keys
  end.

(** The [expiration] parameter of a [Pipeliner] method, if it has one. *)
Definition callExpiration (c : Call) : option Duration :=
  match c with
  | CallSet _ _ expiration | CallSetNX _ _ expiration | CallExpire _ expiration =>
      Some expiration
  | _ => None
  end.

(** A store that cannot be reached: the round trip fails as a whole. *)
Definition downServer (_ : list Call) : RoundTrip :=
  {| rt_replies := []; rt_err := Some (DriverError "i/o timeout") |}.

(** * Properties *)

(** ** TTL resolution *)

(** C4: [GetTTL] returns the requested duration when it is positive and
    the configured default when it is zero or negative; [Set] passes the
    resolved duration to the store, so a zero or negative expiration
    stores with the default. *)
Theorem GetTTL_resolves (c : Config) (d : Duration) :
  (0 < d -> GetTTL c d = d) /\
  (d <= 0 -> GetTTL c d = DefaultTTL (Common c)) /\
  (forall (cl : SingleClient.t) key value,
      RedisClient.config cl = c ->
      SingleClient.Set' cl key value d =
        rErr (redis_Set (RedisClient.client cl) (GetKeyWithPrefix c key) value
                (GetTTL c d)) /\
      (d <= 0 ->
       SingleClient.Set' cl key value d =
         rErr (redis_Set (RedisClient.client cl) (GetKeyWithPrefix c key) value
                 (DefaultTTL (Common c))))).
Proof.
  assert (Hpos : 0 < d -> GetTTL c d = d).
  { intros H. unfold GetTTL. destruct (Z.ltb_spec 0 d); [reflexivity | lia]. }
  assert (Hneg : d <= 0 -> GetTTL c d = DefaultTTL (Common c)).
  { intros H. unfold GetTTL. destruct (Z.ltb_spec 0 d); [lia | reflexivity]. }
  split; [exact Hpos | split; [exact Hneg |]].
  intros cl key value <-.
  unfold SingleClient.Set', RedisClient.Set'. split; [reflexivity |].
  intros H. now rewrite (Hneg H).
Qed.

Lemma GetTTL_resolves_witness :
  GetTTL DefaultConfig (5 * Minute) = 5 * Minute /\
  GetTTL DefaultConfig 0 = 24 * Hour /\
  GetTTL DefaultConfig (-1) = 24 * Hour.
Proof.
  split; [| split].
  - apply (proj1 (GetTTL_resolves DefaultConfig (5 * Minute))). reflexivity.
  - apply (proj1 (proj2 (GetTTL_resolves DefaultConfig 0))). discriminate.
  - apply (proj1 (proj2 (GetTTL_resolves DefaultConfig (-1)))). discriminate.
Defined.

(** ** Validation *)

Lemma is_empty_nil {A} (l : list A) : is_empty l = true <-> l = [].
Proof. destruct l; simpl; split; congruence. Qed.

Lemma Validate_ok_iff (c : Config) : Validate c = None <-> well_configured c.
Proof.
  unfold Validate, well_configured, ModeSingle, ModeCluster, ModeSentinel.
  split.
  - intros H. repeat case_decide; try discriminate.
    + left. split; [assumption |].
      destruct (Single c) as [s|]; [| discriminate].
      case_decide; [discriminate |]. eauto.
    + right; left. split; [assumption |].
      destruct (Cluster c) as [cl|]; [| discriminate].
      destruct (cluster_Addrs cl) eqn:E; [discriminate |].
      exists cl. rewrite E. split; [reflexivity | discriminate].
    + right; right. split; [assumption |].
      destruct (Sentinel c) as [s|]; [| discriminate].
      destruct (sentinel_Addrs s) eqn:E; [discriminate |]. simpl in H.
      case_decide; [discriminate |].
      exists s. rewrite E. repeat split; [discriminate | assumption].
  - intros [[Hm (s & Hs & Ha)] | [[Hm (cl & Hs & Ha)] | [Hm (s & Hs & Ha & Hn)]]];
      rewrite Hm, Hs; simpl.
    + case_decide; [contradiction | reflexivity].
    + destruct (cluster_Addrs cl); [contradiction | reflexivity].
    + destruct (sentinel_Addrs s); [contradiction |]. simpl.
      case_decide; [contradiction | reflexivity].
Qed.

Lemma Validate_error_names (c : Config) (e : error) :
  Validate c = Some e -> names_missing c e.
Proof.
  unfold Validate. intros H.
  destruct (decide (mode c = "")) as [He|He].
  { injection H as <-. apply nm_mode; rewrite He; discriminate. }
  destruct (decide (mode c = ModeSingle)) as [H1|H1].
  { destruct (Single c) as [s|] eqn:Es.
    - case_decide; [| discriminate]. injection H as <-. eapply nm_addr; eauto.
    - injection H as <-. now apply nm_single. }
  destruct (decide (mode c = ModeCluster)) as [H2|H2].
  { destruct (Cluster c) as [cl|] eqn:Es.
    - destruct (is_empty (cluster_Addrs cl)) eqn:E; [| discriminate].
      injection H as <-. eapply nm_cluster_addrs; eauto. now apply is_empty_nil.
    - injection H as <-. now apply nm_cluster. }
  destruct (decide (mode c = ModeSentinel)) as [H3|H3].
  { destruct (Sentinel c) as [s|] eqn:Es.
    - destruct (is_empty (sentinel_Addrs s)) eqn:E.
      + injection H as <-. eapply nm_sentinel_addrs; eauto. now apply is_empty_nil.
      + case_decide; [| discriminate]. injection H as <-.
        eapply nm_master; eauto. intros Hn. apply is_empty_nil in Hn. congruence.
    - injection H as <-. now apply nm_sentinel. }
  injection H as <-. now apply nm_mode.
Qed.

(** C6: [Validate] succeeds exactly on the well-configured
    configurations; when it fails it returns one of the configuration
    errors of errors.go, the one naming what is missing; any tag other
    than the three, the empty one included, fails with [ErrInvalidMode]. *)
Theorem Validate_characterised (c : Config) :
  (Validate c = None <-> well_configured c) /\
  (forall e, Validate c = Some e -> names_missing c e /\ e ∈ configErrors) /\
  (mode c <> ModeSingle -> mode c <> ModeCluster -> mode c <> ModeSentinel ->
   Validate c = Some ErrInvalidMode).
Proof.
  split; [apply Validate_ok_iff | split].
  - intros e He. split; [now apply Validate_error_names |].
    apply Validate_error_names in He.
    unfold configErrors. destruct He; set_solver.
  - intros H1 H2 H3. unfold Validate. repeat case_decide; congruence.
Qed.

Lemma Validate_characterised_witness :
  Validate DefaultConfig = None /\
  names_missing
    {| mode := ModeSentinel; Single := None; Cluster := None;
       Sentinel := Some {| sentinel_Addrs := ["10.0.0.1:26379"];
                           sentinel_MasterName := ""; sentinel_DB := 0;
                           sentinel_SentinelPassword := "" |};
       Common := Common DefaultConfig |} ErrMissingMasterName /\
  Validate {| mode := "standalone"; Single := Single DefaultConfig; Cluster := None;
              Sentinel := None; Common := Common DefaultConfig |}
    = Some ErrInvalidMode.
Proof.
  split; [| split].
  - apply (proj2 (proj1 (Validate_characterised DefaultConfig))).
    left. split; [reflexivity |]. eexists. split; [reflexivity | discriminate].
  - eapply (proj1 (proj2 (Validate_characterised _))). reflexivity.
  - apply (proj2 (proj2 (Validate_characterised _))); discriminate.
Defined.

(** ** The not-found condition of [Get] *)

(** C5: when the store answers a lookup with [redis.Nil] (the key is
    missing), [Get] of the single-node client and of the sentinel client
    returns the empty string and [ErrKeyNotFound]; that error is neither
    the driver's nil-result error, nor [ErrNilResult], nor any other
    driver error, and [errors.Is] recognises it. *)
Theorem Get_missing_key_not_found (c : RedisClient.t) (key : string) :
  rErr (redis_Get (RedisClient.client c)
          (GetKeyWithPrefix (RedisClient.config c) key)) = Some RedisNil ->
  SingleClient.Get c key = ("", Some ErrKeyNotFound) /\
  SentinelClient.Get c key = ("", Some ErrKeyNotFound) /\
  ErrKeyNotFound <> RedisNil /\
  ErrKeyNotFound <> ErrNilResult /\
  (forall msg, ErrKeyNotFound <> DriverError msg) /\
  errors_Is ErrKeyNotFound ErrKeyNotFound = true /\
  errors_Is ErrKeyNotFound RedisNil = false.
Proof.
  intros Hmiss.
  unfold SingleClient.Get, SentinelClient.Get, RedisClient.Get.
  rewrite Hmiss.
  destruct (decide (Some RedisNil = Some RedisNil)) as [_|Hne]; [| congruence].
  repeat split; try discriminate; reflexivity.
Qed.

Lemma Get_missing_key_not_found_witness :
  SingleClient.Get appClient "k1" = ("", Some ErrKeyNotFound).
Proof.
  apply (Get_missing_key_not_found appClient "k1"). reflexivity.
Defined.

(** Any other answer of the store is handed back unchanged. *)
Lemma Get_other_answers (c : RedisClient.t) (key : string) :
  rErr (redis_Get (RedisClient.client c)
          (GetKeyWithPrefix (RedisClient.config c) key)) <> Some RedisNil ->
  SingleClient.Get c key =
    Result (redis_Get (RedisClient.client c)
              (GetKeyWithPrefix (RedisClient.config c) key)).
Proof.
  intros H. unfold SingleClient.Get, RedisClient.Get.
  case_decide; [contradiction | reflexivity].
Qed.

(** ** The default configuration *)

(** C10: [NewFactory] on a nil configuration returns no error and a
    factory holding [DefaultConfig]: single-node mode at
    localhost:6379, database 0, a default TTL of 24 hours and an empty
    key prefix; [CreateClient] on that factory takes the single-node
    constructor, which builds a [redis.NewClient] backend for that
    address and database and wraps it in a [SingleClient]. *)
Theorem NewFactory_nil_uses_DefaultConfig :
  NewFactory None = (Some {| f_config := DefaultConfig |}, None) /\
  mode DefaultConfig = ModeSingle /\
  Single DefaultConfig = Some {| single_Addr := "localhost:6379"; single_DB := 0 |} /\
  DefaultTTL (Common DefaultConfig) = 24 * Hour /\
  KeyPrefix (Common DefaultConfig) = "" /\
  forall w : World,
    CreateClient w {| f_config := DefaultConfig |} =
      createSingleClient w {| f_config := DefaultConfig |} /\
    exists opts,
      opt_Addr opts = "localhost:6379" /\ opt_DB opts = 0 /\
      CreateClient w {| f_config := DefaultConfig |} =
        Returned (connect w (NewClient opts) "failed to connect to redis"
                    (fun rdb => SingleClientOf rdb DefaultConfig)).
Proof.
  do 5 (split; [reflexivity |]).
  intros w. split; [reflexivity |].
  eexists. split; [| split]; [| | reflexivity]; reflexivity.
Qed.

(** ** Key prefixing and prefix stripping *)

Lemma string_length_app (p k : string) :
  String.length (p +:+ k) = (String.length p + String.length k)%nat.
Proof. induction p as [|a p IH]; simpl; [reflexivity | now rewrite IH]. Qed.

Lemma string_drop_app (p k : string) :
  string_drop (String.length p) (p +:+ k) = k.
Proof. induction p as [|a p IH]; simpl; [now destruct k | exact IH]. Qed.

Lemma string_length_zero (k : string) : String.length k = 0%nat -> k = "".
Proof. destruct k; [reflexivity | discriminate]. Qed.

Lemma string_drop_length (n : nat) (s : string) :
  (n <= String.length s)%nat ->
  String.length (string_drop n s) = (String.length s - n)%nat.
Proof.
  revert s. induction n as [|n IH]; intros s H; simpl.
  - lia.
  - destruct s as [|a s]; simpl in *; [lia | apply IH; lia].
Qed.

Lemma stripKey_withPrefix (p k : string) :
  k <> "" -> stripKey (String.length p) (p +:+ k) = k.
Proof.
  intros Hk. unfold stripKey. rewrite string_length_app.
  destruct (Nat.ltb_spec (String.length p) (String.length p + String.length k)) as [_|H].
  - apply string_drop_app.
  - exfalso. apply Hk, string_length_zero. lia.
Qed.

(** Stated for every key, the round trip fails on the empty key: with
    prefix ["app:"],
    the key the store holds for [""] is ["app:"] itself, which is not
    longer than the prefix and so comes back unstripped. *)
Lemma strip_empty_key_counterexample :
  ~ (forall (c : Config) (k : string),
        KeyPrefix (Common c) <> "" ->
        stripPrefix1 c (GetKeyWithPrefix c k) = k).
Proof.
  intros H. specialize (H appConfig "").
  vm_compute in H. discriminate H. discriminate.
Qed.

(** The same through [Keys]: the listing reveals the prefix. *)
Example Keys_reveals_bare_prefix :
  SingleClient.Keys appClient "*" = (Some ["app:"; "k1"], None).
Proof. reflexivity. Qed.

(** C3, as the code has it: with an empty prefix [GetKeyWithPrefix] and
    the stripping of [Keys] and [Scan] are both the identity; with a
    non-empty prefix [GetKeyWithPrefix k] is the prefix followed by [k],
    the stripping removes exactly [len(prefix)] leading characters from
    every returned key that is longer than the prefix, and so gives [k]
    back from [GetKeyWithPrefix k] for every non-empty key [k], shorter
    than the prefix or not. *)
Theorem prefix_strip_roundtrip (c : Config) (k : string) :
  (KeyPrefix (Common c) = "" ->
     GetKeyWithPrefix c k = k /\ stripPrefix1 c k = k) /\
  (KeyPrefix (Common c) <> "" ->
     GetKeyWithPrefix c k = KeyPrefix (Common c) +:+ k /\
     (forall key,
        (String.length (KeyPrefix (Common c)) < String.length key)%nat ->
        stripPrefix1 c key = string_drop (String.length (KeyPrefix (Common c))) key /\
        String.length (stripPrefix1 c key) =
          (String.length key - String.length (KeyPrefix (Common c)))%nat)) /\
  (k <> "" -> stripPrefix1 c (GetKeyWithPrefix c k) = k) /\
  (forall keys, stripPrefix c keys = stripPrefix1 c <$> keys) /\
  (forall (cl : SingleClient.t) pattern,
      RedisClient.config cl = c ->
      rErr (redis_Keys (RedisClient.client cl) (GetKeyWithPrefix c pattern)) = None ->
      SingleClient.Keys cl pattern =
        (Some (stripPrefix1 c <$>
                 rVal (redis_Keys (RedisClient.client cl) (GetKeyWithPrefix c pattern))),
         None)).
Proof.
  assert (Hmap : forall keys, stripPrefix c keys = stripPrefix1 c <$> keys).
  { intros keys. unfold stripPrefix, stripPrefix1.
    case_decide; [| reflexivity].
    induction keys as [|x xs IH]; [reflexivity |].
    rewrite fmap_cons, <- IH. reflexivity. }
  split; [| split; [| split; [| split]]].
  - intros He. unfold GetKeyWithPrefix, stripPrefix1.
    case_decide; [split; reflexivity | contradiction].
  - intros Hne. split.
    + unfold GetKeyWithPrefix. case_decide; [contradiction | reflexivity].
    + intros key Hlen. unfold stripPrefix1, stripKey.
      case_decide; [contradiction |].
      destruct (Nat.ltb_spec (String.length (KeyPrefix (Common c))) (String.length key));
        [| lia].
      split; [reflexivity | apply string_drop_length; lia].
  - intros Hk. unfold stripPrefix1, GetKeyWithPrefix.
    case_decide; [reflexivity |]. now apply stripKey_withPrefix.
  - exact Hmap.
  - intros cl pattern <- Herr.
    unfold SingleClient.Keys, RedisClient.Keys. rewrite Herr, Hmap. reflexivity.
Qed.

Lemma prefix_strip_roundtrip_witness :
  GetKeyWithPrefix DefaultConfig "k1" = "k1" /\
  GetKeyWithPrefix appConfig "k1" = "app:k1" /\
  stripPrefix1 appConfig "app:k1" = "k1" /\
  stripPrefix1 appConfig (GetKeyWithPrefix appConfig "k1") = "k1" /\
  SingleClient.Keys appClient "*" =
    (Some (stripPrefix1 appConfig <$> ["app:"; "app:k1"]), None).
Proof.
  pose proof (prefix_strip_roundtrip DefaultConfig "k1") as Hd.
  pose proof (prefix_strip_roundtrip appConfig "k1") as Ha.
  destruct Hd as [Hd _]. destruct Ha as (_ & Ha2 & Ha3 & _ & Ha5).
  assert (Hne : KeyPrefix (Common appConfig) <> "") by discriminate.
  split; [apply Hd; reflexivity |].
  split; [apply (proj1 (Ha2 Hne)) |].
  split; [apply (proj1 (proj2 (Ha2 Hne) "app:k1" ltac:(simpl; lia))) |].
  split; [apply Ha3; discriminate |].
  apply (Ha5 appClient "*"); reflexivity.
Defined.

(** ** [MSet] *)


Lemma insert_at_length {A} (done : list A) (a y : A) (l : list A) :
  <[length done := y]> (done ++ a :: l) = done ++ y :: l.
Proof. induction done as [|d done IH]; simpl; [reflexivity | now rewrite IH]. Qed.

Lemma MSet_by_pairs_one c x : MSet_by_pairs c [x] = Returned [INil].
Proof. now destruct x. Qed.

(** Past the end of the arguments the loop stops at once. *)
Lemma MSet_loop_done c pairs fuel i p :
  (length pairs <= i)%nat -> MSet_loop c pairs fuel i p = Returned p.
Proof.
  intros H. destruct fuel; simpl; [reflexivity |].
  destruct (Nat.ltb_spec i (length pairs)); [lia | reflexivity].
Qed.

(** The loop invariant: with [pre] consumed and [done] written, the loop
    finishes the remaining arguments pair by pair. *)
Lemma MSet_loop_by_pairs c fuel :
  forall pre rest done,
    length done = length pre ->
    (length rest <= fuel)%nat ->
    MSet_loop c (pre ++ rest) fuel (length pre)
      (done ++ replicate (length rest) INil) =
    match MSet_by_pairs c rest with
    | Returned out => Returned (done ++ out)
    | Panicked => Panicked
    end.
Proof.
  induction fuel as [|fuel IH]; intros pre rest done Hlen Hfuel.
  - destruct rest; simpl in *; [reflexivity | lia].
  - destruct rest as [|x [|v rest]].
    + rewrite MSet_loop_done; [reflexivity | rewrite length_app; simpl; lia].
    + rewrite MSet_by_pairs_one. cbn [MSet_loop].
      rewrite length_app. simpl length.
      destruct (Nat.ltb_spec (length pre) (length pre + 1)); [| lia].
      destruct (Nat.ltb_spec (length pre + 1) (length pre + 1)); [lia |].
      apply MSet_loop_done. rewrite length_app. simpl. lia.
    + cbn [MSet_loop]. rewrite length_app. simpl length.
      destruct (Nat.ltb_spec (length pre) (length pre + S (S (length rest)))); [| lia].
      destruct (Nat.ltb_spec (length pre + 1) (length pre + S (S (length rest)))); [| lia].
      rewrite lookup_app_r by lia. rewrite Nat.sub_diag. simpl lookup.
      destruct x; try reflexivity.
      rewrite lookup_app_r by lia.
      replace (length pre + 1 - length pre)%nat with 1%nat by lia. simpl lookup.
      simpl default. simpl replicate.
      rewrite <- Hlen. rewrite insert_at_length.
      replace (done ++ IString (GetKeyWithPrefix c s) :: INil :: replicate (length rest) INil)
        with ((done ++ [IString (GetKeyWithPrefix c s)]) ++ INil :: replicate (length rest) INil)
        by (now rewrite <- app_assoc).
      replace (length done + 1)%nat with (length (done ++ [IString (GetKeyWithPrefix c s)]))
        by (rewrite length_app; simpl; lia).
      rewrite insert_at_length.
      specialize (IH (pre ++ [IString s; v]) rest
                    (done ++ [IString (GetKeyWithPrefix c s); v])).
      rewrite !length_app in IH. simpl length in IH. rewrite <- Hlen in IH.
      rewrite <- !app_assoc in IH. simpl app in IH.
      rewrite <- !app_assoc. simpl app.
      rewrite IH by (simpl in Hfuel; lia).
      simpl MSet_by_pairs.
      destruct (MSet_by_pairs c rest); [| reflexivity].
      now rewrite <- app_assoc.
Qed.

(** The index loop of the code computes the pairwise description. *)
Lemma MSet_pairs_by_pairs c pairs : MSet_pairs c pairs = MSet_by_pairs c pairs.
Proof.
  unfold MSet_pairs.
  pose proof (MSet_loop_by_pairs c (length pairs) [] pairs [] eq_refl (le_n _)) as H.
  simpl in H. rewrite H. now destruct (MSet_by_pairs c pairs).
Qed.






(** ** The liveness probe of the factory *)







(** A factory made by [NewFactory] holds a validated configuration. *)
Lemma NewFactory_validated (c : option Config) (f : Factory) :
  NewFactory c = (Some f, None) -> Validate (f_config f) = None.
Proof.
  unfold NewFactory. intros H.
  destruct (Validate (match c with Some c0 => c0 | None => DefaultConfig end)) eqn:E;
    [discriminate |].
  injection H as <-. exact E.
Qed.

(** On a validated configuration no constructor dereferences a nil
    sub-configuration: [CreateClient] returns. *)
Lemma CreateClient_returns (w : World) (f : Factory) :
  Validate (f_config f) = None -> exists b, CreateClient w f = Returned b.
Proof.
  intros Hv. apply Validate_ok_iff in Hv.
  unfold CreateClient, createSingleClient, createClusterClient, createSentinelClient.
  destruct Hv as [[Hm (s & Hs & _)] | [[Hm (cl & Hs & _)] | [Hm (s & Hs & _)]]];
    rewrite Hm, Hs; simpl;
    destruct (configureTLS w (Common (f_config f)) (poolOptions (Common (f_config f))));
    eauto.
Qed.



(** ** Pipelines: what enqueueing and executing do to the heap *)

Section PipelineFacts.

Variable server : list Call -> RoundTrip.
Variable cfg : Config.

(** An enqueue method allocates the driver's command at [brk] and the
    handle right after it; the handle is the unresolved one because
    the command read back is the one just created. *)
Lemma enqueue_eq (c : Call) (st : State) :
  enqueue cfg c st =
    (S (brk st),
     {| heap := <[S (brk st) := OHandle (unresolved (kindOf c))]>
                  (<[brk st := ODriverCmd
                                 {| cmd_call := driverCall cfg c;
                                    cmd_val := zero (kindOf (driverCall cfg c));
                                    cmd_err := None |}]> (heap st));
        cmds := cmds st ++ [brk st];
        brk := S (S (brk st)) |}).
Proof.
  unfold enqueue, pipe_call, alloc, cmd_Val, cmd_Err, unresolved. simpl.
  rewrite lookup_insert_eq. simpl.
  replace (kindOf (driverCall cfg c)) with (kindOf c) by (now destruct c).
  reflexivity.
Qed.

Lemma kindOf_driverCall (c : Call) : kindOf (driverCall cfg c) = kindOf c.
Proof. now destruct c. Qed.

Lemma enqueue_bounded (c : Call) (st : State) :
  bounded st -> bounded (snd (enqueue cfg c st)).
Proof.
  intros [Hh Hc]. rewrite enqueue_eq. split; simpl.
  - intros l. rewrite !lookup_insert_is_Some.
    intros [-> | [_ [-> | [_ H]]]]; [lia | lia |]. apply Hh in H. lia.
  - intros l. rewrite elem_of_app, list_elem_of_singleton.
    intros [H | ->]; [apply Hc in H |]; lia.
Qed.

(** Objects already on the heap are not touched by an enqueue. *)
Lemma enqueue_old (c : Call) (st : State) (l : loc) :
  (l < brk st)%nat -> heap (snd (enqueue cfg c st)) !! l = heap st !! l.
Proof.
  intros H. rewrite enqueue_eq. simpl.
  rewrite !lookup_insert_ne by lia. reflexivity.
Qed.

Lemma writeReplies_is_Some ls : forall rs h l,
  is_Some (writeReplies ls rs h !! l) <-> is_Some (h !! l).
Proof.
  induction ls as [|x ls IH]; intros [|r rs] h l; simpl; try reflexivity.
  rewrite IH. destruct (decide (x = l)) as [->|Hne].
  - rewrite lookup_alter_eq. now rewrite fmap_is_Some.
  - now rewrite lookup_alter_ne.
Qed.

(** The driver's writes go through command pointers only: whatever
    is queued, a handle on the heap keeps both fields. *)
Lemma writeReplies_handle ls : forall rs h l x,
  h !! l = Some (OHandle x) -> writeReplies ls rs h !! l = Some (OHandle x).
Proof.
  induction ls as [|y ls IH]; intros [|r rs] h l x H; simpl; try exact H.
  apply IH. destruct (decide (y = l)) as [->|Hne].
  - rewrite lookup_alter_eq, H. reflexivity.
  - now rewrite lookup_alter_ne.
Qed.

Lemma step_bounded (o : op) (st : State) :
  bounded st -> bounded (step server cfg o st).
Proof.
  intros Hb. destruct o; simpl.
  - now apply enqueue_bounded.
  - destruct Hb as [Hh Hc]. unfold Exec, pipe_Exec.
    destruct (rt_err (server (queued st))); simpl; split; simpl;
      try (intros l Hl; now apply elem_of_nil in Hl);
      intros l Hl; apply writeReplies_is_Some in Hl; now apply Hh.
  - destruct Hb as [Hh Hc]. split; simpl; [exact Hh |].
    intros l Hl. now apply elem_of_nil in Hl.
  - exact Hb.
Qed.

Lemma step_handle (o : op) (st : State) (l : loc) (x : Handle) :
  bounded st -> handleAt st l = Some x -> handleAt (step server cfg o st) l = Some x.
Proof.
  intros [Hh Hc] H. unfold handleAt in *.
  destruct (heap st !! l) as [[?|h]|] eqn:E; try discriminate.
  injection H as ->.
  assert (Hl : (l < brk st)%nat) by (apply Hh; rewrite E; eauto).
  destruct o; unfold step.
  - rewrite enqueue_old by exact Hl. now rewrite E.
  - unfold Exec, pipe_Exec.
    destruct (rt_err (server (queued st))); simpl;
      now rewrite (writeReplies_handle _ _ _ _ _ E).
  - simpl. now rewrite E.
  - simpl. now rewrite E.
Qed.

Lemma run_handle (ops : list op) : forall (st : State) (l : loc) (x : Handle),
  bounded st -> handleAt st l = Some x ->
  handleAt (run server cfg ops st) l = Some x /\ bounded (run server cfg ops st).
Proof.
  induction ops as [|o ops IH]; intros st l x Hb H; simpl; [auto |].
  apply IH; [now apply step_bounded | now apply step_handle].
Qed.

End PipelineFacts.

Lemma bounded_emptyState : bounded emptyState.
Proof.
  split; simpl.
  - intros l. rewrite lookup_empty. intros [x Hx]. discriminate.
  - intros l Hl. now apply elem_of_nil in Hl.
Qed.

(** C8: the handle an enqueue method returns is built, at enqueue
    time, from the value and the error the driver's command object has
    at that moment, whatever the handle type; and no later use of the
    pipeliner ([Exec], [Discard], [Close], further enqueues, in any
    order) changes a field of that handle or of any handle returned
    before. *)
Theorem handle_fixed_at_enqueue (server : list Call -> RoundTrip) (cfg : Config)
    (c : Call) (st : State) :
  bounded st ->
  exists cmd st1 h st2,
    pipe_call (driverCall cfg c) st = (cmd, st1) /\
    enqueue cfg c st = (h, st2) /\
    handleAt st2 h =
      Some {| h_kind := kindOf c;
              val := cmd_Val st1 cmd (kindOf c);
              err := cmd_Err st1 cmd |} /\
    (forall ops, handleAt (run server cfg ops st2) h = handleAt st2 h) /\
    (forall l x ops,
        handleAt st l = Some x ->
        handleAt (run server cfg (OpEnqueue c :: ops) st) l = Some x).
Proof.
  intros Hb.
  destruct (pipe_call (driverCall cfg c) st) as [cmd st1] eqn:Hp.
  destruct (enqueue cfg c st) as [h st2] eqn:He.
  exists cmd, st1, h, st2.
  assert (Hh : handleAt st2 h =
               Some {| h_kind := kindOf c;
                       val := cmd_Val st1 cmd (kindOf c);
                       err := cmd_Err st1 cmd |}).
  { unfold enqueue in He. rewrite Hp in He. unfold alloc in He.
    injection He as <- <-. unfold handleAt. simpl.
    now rewrite lookup_insert_eq. }
  assert (Hb2 : bounded st2).
  { pose proof (enqueue_bounded cfg c st Hb) as H. now rewrite He in H. }
  repeat split; try reflexivity.
  - exact Hh.
  - intros ops. rewrite Hh. now apply run_handle.
  - intros l x ops Hl. now apply run_handle.
Qed.

Lemma handle_fixed_at_enqueue_witness :
  exists cmd st1 h st2,
    pipe_call (driverCall appConfig (CallGet "k1")) emptyState = (cmd, st1) /\
    enqueue appConfig (CallGet "k1") emptyState = (h, st2) /\
    handleAt st2 h =
      Some {| h_kind := StringCmd;
              val := cmd_Val st1 cmd StringCmd;
              err := cmd_Err st1 cmd |} /\
    (forall ops, handleAt (run basicServer appConfig ops st2) h = handleAt st2 h) /\
    (forall l x ops,
        handleAt emptyState l = Some x ->
        handleAt (run basicServer appConfig (OpEnqueue (CallGet "k1") :: ops) emptyState) l
          = Some x).
Proof.
  apply (handle_fixed_at_enqueue basicServer appConfig (CallGet "k1") emptyState).
  apply bounded_emptyState.
Defined.

(** ** Pipelines: a whole batch *)

Section BatchFacts.

Variable server : list Call -> RoundTrip.
Variable cfg : Config.

(** Where a batch ends up: the [i]-th command at [brk + 2i], its handle
    right after it, everything older untouched. *)
Lemma enqueueAll_spec (cs : list Call) : forall st hs stF,
  enqueueAll cfg cs st = (hs, stF) ->
  brk stF = (brk st + 2 * length cs)%nat /\
  length hs = length cs /\
  (forall i, (i < length cs)%nat -> hs !! i = Some (brk st + 2 * i + 1)%nat) /\
  (exists ls, cmds stF = cmds st ++ ls /\ length ls = length cs /\
              forall i, (i < length cs)%nat -> ls !! i = Some (brk st + 2 * i)%nat) /\
  (forall l, (l < brk st)%nat -> heap stF !! l = heap st !! l) /\
  (forall i c, cs !! i = Some c ->
     heap stF !! (brk st + 2 * i)%nat = Some (ODriverCmd (queuedCmd cfg c)) /\
     heap stF !! (brk st + 2 * i + 1)%nat = Some (OHandle (unresolved (kindOf c)))).
Proof.
  induction cs as [|c cs IH]; intros st hs stF H.
  - injection H as <- <-. simpl.
    split; [lia | split; [reflexivity | split; [intros; lia | split]]].
    + exists []. rewrite app_nil_r. split; [reflexivity | split; [reflexivity |]].
      intros; lia.
    + split; [reflexivity | intros i c' Hc; discriminate].
  - cbn [enqueueAll] in H. rewrite enqueue_eq in H.
    match type of H with
    | context [enqueueAll cfg cs ?s] =>
        destruct (enqueueAll cfg cs s) as [hs' st'] eqn:E; set (st1 := s) in *
    end.
    injection H as <- <-.
    destruct (IH st1 hs' st' E) as (Hbrk & Hlen & Hhs & (ls & Hcmds & Hll & Hls) & Hold & Hnew).
    simpl brk in *. simpl cmds in *. simpl heap in *.
    split; [simpl; lia | split; [simpl; lia | split; [| split; [| split]]]].
    + intros [|i] Hi; simpl.
      * f_equal. lia.
      * rewrite Hhs by (simpl in Hi; lia). f_equal. lia.
    + exists (brk st :: ls). rewrite Hcmds, <- app_assoc.
      split; [reflexivity | split; [simpl; lia |]].
      intros [|i] Hi; simpl.
      * f_equal. lia.
      * rewrite Hls by (simpl in Hi; lia). f_equal. lia.
    + intros l Hl. rewrite Hold by lia.
      rewrite !lookup_insert_ne by lia. reflexivity.
    + intros [|i] c' Hc; simpl in Hc.
      * injection Hc as <-.
        replace (brk st + 2 * 0)%nat with (brk st) by lia.
        replace (brk st + 1)%nat with (S (brk st)) by lia.
        rewrite !Hold by lia.
        rewrite lookup_insert_eq.
        rewrite lookup_insert_ne by lia. rewrite lookup_insert_eq.
        split; reflexivity.
      * destruct (Hnew i c' Hc) as [H1 H2].
        replace (brk st + 2 * S i)%nat with (S (S (brk st)) + 2 * i)%nat by lia.
        split; assumption.
Qed.

Lemma writeReplies_notin ls : forall rs h l,
  l ∉ ls -> writeReplies ls rs h !! l = h !! l.
Proof.
  induction ls as [|x ls IH]; intros [|r rs] h l Hl; simpl; try reflexivity.
  apply not_elem_of_cons in Hl as [Hne Hl].
  rewrite IH by exact Hl. now rewrite lookup_alter_ne.
Qed.

(** The [i]-th answer lands in the [i]-th queued command. *)
Lemma writeReplies_lookup ls : forall rs h i l r,
  ls !! i = Some l -> rs !! i = Some r ->
  (forall j, ls !! j = Some l -> j = i) ->
  writeReplies ls rs h !! l = setReply r <$> (h !! l).
Proof.
  induction ls as [|x ls IH]; intros [|r0 rs] h i l r Hl Hr Huniq;
    try discriminate; try (destruct i; discriminate).
  destruct i as [|i]; simpl in *.
  - injection Hl as ->. injection Hr as ->.
    rewrite writeReplies_notin.
    + apply lookup_alter_eq.
    + intros Hin. apply list_elem_of_lookup in Hin as [j Hj].
      specialize (Huniq (S j) Hj). discriminate.
  - assert (x <> l).
    { intros ->. specialize (Huniq 0%nat eq_refl). discriminate. }
    rewrite (IH rs _ i l r Hl Hr).
    + now rewrite lookup_alter_ne.
    + intros j Hj. specialize (Huniq (S j) Hj). lia.
Qed.

Lemma omap_positional {A B C} (f : A -> option B) (g : C -> B) (ls : list A) :
  forall cs : list C,
    length ls = length cs ->
    (forall i c, cs !! i = Some c -> exists l, ls !! i = Some l /\ f l = Some (g c)) ->
    omap f ls = g <$> cs.
Proof.
  induction ls as [|l ls IH]; intros [|c cs] Hlen H; try discriminate;
    [reflexivity |].
  destruct (H 0%nat c eq_refl) as (l' & Hl' & Hf). injection Hl' as <-.
  simpl. rewrite Hf. simpl. f_equal.
  apply IH; [simpl in Hlen; lia |].
  intros i c' Hc. apply (H (S i) c' Hc).
Qed.

End BatchFacts.

(** The only error [Exec] can return is the one the driver's
    [pipe.Exec] returned; with it come no results. *)
Lemma Exec_top_level_error (server : list Call -> RoundTrip) (st : State) :
  snd (fst (Exec server st)) = rt_err (server (queued st)) /\
  (rt_err (server (queued st)) = None ->
   fst (fst (Exec server st)) = Some (cmds st)) /\
  (forall e, rt_err (server (queued st)) = Some e ->
   fst (fst (Exec server st)) = None).
Proof.
  unfold Exec, pipe_Exec.
  destruct (rt_err (server (queued st))) as [e|] eqn:E; simpl.
  - split; [reflexivity | split; [discriminate | reflexivity]].
  - split; [reflexivity | split; [reflexivity | discriminate]].
Qed.

(** [Discard] sends nothing: the queue is dropped and no object on the
    heap changes. *)
Lemma Discard_drops_queue (st : State) :
  fst (Discard st) = None /\
  cmds (snd (Discard st)) = [] /\
  heap (snd (Discard st)) = heap st.
Proof. repeat split. Qed.

(** C2: for a batch of N commands enqueued on a fresh pipeline and
    answered by the store without a top-level error, [Exec] does return
    N results in enqueue order, the [i]-th being the driver's command
    for the [i]-th call with its answer; but the [i]-th handle still
    holds what it was built with at enqueue time, the zero value and a
    nil error, so it does not hold the resolved value unless that value
    happens to be the zero value. *)
Theorem batch_handles_not_resolved (server : list Call -> RoundTrip)
    (cfg : Config) (cs : list Call) (hs : list loc)
    (res : option (list loc) * option error) (st2 : State) :
  runBatch server cfg cs = (hs, res, st2) ->
  rt_err (server (driverCall cfg <$> cs)) = None ->
  length (rt_replies (server (driverCall cfg <$> cs))) = length cs ->
  exists results,
    res = (Some results, None) /\
    length results = length cs /\
    length hs = length cs /\
    forall i c r,
      cs !! i = Some c ->
      rt_replies (server (driverCall cfg <$> cs)) !! i = Some r ->
      exists p h,
        results !! i = Some p /\
        cmderAt st2 p = Some (answered (driverCall cfg c) r) /\
        hs !! i = Some h /\
        handleAt st2 h = Some (unresolved (kindOf c)) /\
        (fst r <> zero (kindOf c) ->
         Handle_Val (unresolved (kindOf c)) <> fst r).
Proof.
  unfold runBatch. intros Hrun Herr Hreplies.
  destruct (enqueueAll cfg cs emptyState) as [hs' st1] eqn:E.
  destruct (enqueueAll_spec cfg cs _ _ _ E)
    as (Hbrk & Hlen & Hhs & (ls & Hcmds & Hll & Hls) & _ & Hnew).
  change (brk emptyState) with 0%nat in *.
  change (cmds emptyState ++ ls) with ls in Hcmds.
  assert (Hq : queued st1 = driverCall cfg <$> cs).
  { unfold queued. rewrite Hcmds. apply omap_positional; [exact Hll |].
    intros i c Hc. exists (0 + 2 * i)%nat. split.
    - apply Hls. apply lookup_lt_is_Some. eauto.
    - destruct (Hnew i c Hc) as [H1 _]. now rewrite H1. }
  unfold Exec, pipe_Exec in Hrun. rewrite Hq, Herr in Hrun.
  injection Hrun as <- <- <-.
  exists ls. rewrite Hcmds.
  split; [reflexivity | split; [exact Hll | split; [exact Hlen |]]].
  intros i c r Hc Hr.
  assert (Hi : (i < length cs)%nat) by (apply lookup_lt_is_Some; eauto).
  destruct (Hnew i c Hc) as [H1 H2].
  exists (0 + 2 * i)%nat, (0 + 2 * i + 1)%nat.
  split; [now apply Hls | split; [| split; [now apply Hhs | split]]].
  - unfold cmderAt. simpl heap.
    rewrite (writeReplies_lookup ls _ _ i (0 + 2 * i)%nat r);
      [| now apply Hls | exact Hr |].
    + rewrite H1. reflexivity.
    + intros j Hj.
      assert (Hjl : (j < length cs)%nat).
      { rewrite <- Hll. apply lookup_lt_is_Some. eauto. }
      rewrite (Hls j Hjl) in Hj. injection Hj as Hj. lia.
  - unfold handleAt. simpl heap.
    now rewrite (writeReplies_handle _ _ _ _ _ H2).
  - intros Hne Heq. apply Hne. symmetry. exact Heq.
Qed.

Lemma batch_handles_not_resolved_witness :
  exists results,
    (Some [0; 2]%nat, @None error) = (Some results, None) /\
    length results = length basicBatch /\
    length [1; 3]%nat = length basicBatch /\
    forall i c r,
      basicBatch !! i = Some c ->
      rt_replies (basicServer (driverCall DefaultConfig <$> basicBatch)) !! i = Some r ->
      exists p h,
        results !! i = Some p /\
        cmderAt (snd (runBatch basicServer DefaultConfig basicBatch)) p
          = Some (answered (driverCall DefaultConfig c) r) /\
        [1; 3]%nat !! i = Some h /\
        handleAt (snd (runBatch basicServer DefaultConfig basicBatch)) h
          = Some (unresolved (kindOf c)) /\
        (fst r <> zero (kindOf c) ->
         Handle_Val (unresolved (kindOf c)) <> fst r).
Proof.
  apply (batch_handles_not_resolved basicServer DefaultConfig basicBatch
           [1; 3]%nat (Some [0; 2]%nat, None)
           (snd (runBatch basicServer DefaultConfig basicBatch))).
  - vm_compute. reflexivity.
  - reflexivity.
  - reflexivity.
Defined.

(** The same batch evaluated: the second result holds ["value1"], the
    handle of the get holds the empty string. *)
Example basicBatch_get_handle_is_empty :
  let '(hs, res, st2) := runBatch basicServer DefaultConfig basicBatch in
  hs = [1; 3]%nat /\ res = (Some [0; 2]%nat, None) /\
  cmderAt st2 2%nat = Some (answered (CallGet "pipe:key1") (VString "value1", None)) /\
  (Handle_Val <$> handleAt st2 3%nat) = Some (VString "").
Proof. vm_compute. repeat split; reflexivity. Qed.



(** * Further properties of the package *)

(** ** config.go *)

Lemma string_app_inj (p k1 k2 : string) : p +:+ k1 = p +:+ k2 -> k1 = k2.
Proof.
  induction p as [|a p IH]; simpl; intros H; [exact H |].
  injection H as H. now apply IH.
Qed.

(** X1: prefixing never makes two keys collide: [GetKeyWithPrefix]
    sends different keys to different keys, and the length of the
    result is the length of the prefix plus the length of the key. *)
Theorem GetKeyWithPrefix_injective (c : Config) (k1 k2 : string) :
  (GetKeyWithPrefix c k1 = GetKeyWithPrefix c k2 <-> k1 = k2) /\
  String.length (GetKeyWithPrefix c k1) =
    (String.length (KeyPrefix (Common c)) + String.length k1)%nat.
Proof.
  unfold GetKeyWithPrefix. case_decide as Hp.
  - rewrite Hp. simpl. split; reflexivity.
  - split.
    + split; [apply string_app_inj | now intros ->].
    + apply string_length_app.
Qed.

Lemma GetKeyWithPrefix_injective_witness :
  "user:1" = "user:1" /\
  String.length (GetKeyWithPrefix appConfig "user:1") = 10%nat.
Proof.
  split.
  - apply (proj1 (proj1 (GetKeyWithPrefix_injective appConfig "user:1" "user:1"))).
    reflexivity.
  - apply (proj2 (GetKeyWithPrefix_injective appConfig "user:1" "user:1")).
Defined.

#[global] Instance GetKeyWithPrefix_inj (c : Config) : Inj (=) (=) (GetKeyWithPrefix c).
Proof.
  intros k1 k2. unfold GetKeyWithPrefix.
  case_decide; [auto | apply string_app_inj].
Qed.

(** X2: resolving a TTL twice is resolving it once, and the resolved
    TTL is positive exactly when the requested one or the configured
    default is: a non-positive default is the only way a non-positive
    expiration reaches the store. *)
Theorem GetTTL_idempotent (c : Config) (d : Duration) :
  GetTTL c (GetTTL c d) = GetTTL c d /\
  (0 < GetTTL c d <-> 0 < d \/ 0 < DefaultTTL (Common c)) /\
  (GetTTL c d <= 0 -> d <= 0 /\ GetTTL c d = DefaultTTL (Common c)).
Proof.
  unfold GetTTL.
  destruct (Z.ltb_spec 0 d) as [Hd|Hd].
  - destruct (Z.ltb_spec 0 d); [| lia]. repeat split; auto; lia.
  - destruct (Z.ltb_spec 0 (DefaultTTL (Common c))); repeat split; auto; lia.
Qed.

Lemma GetTTL_idempotent_witness :
  0 < 0 \/ 0 < DefaultTTL (Common appConfig).
Proof.
  apply (proj1 (proj1 (proj2 (GetTTL_idempotent appConfig 0)))).
  reflexivity.
Defined.

(** X3: [Validate] looks at the mode, the addresses and the master
    name only: two configurations that agree on those get the same
    verdict, whatever their database index, redirect and routing
    settings, sentinel password and common settings are. *)
Theorem Validate_frame (c c' : Config) :
  mode c = mode c' ->
  single_Addr <$> Single c = single_Addr <$> Single c' ->
  cluster_Addrs <$> Cluster c = cluster_Addrs <$> Cluster c' ->
  (fun s => (sentinel_Addrs s, sentinel_MasterName s)) <$> Sentinel c =
    (fun s => (sentinel_Addrs s, sentinel_MasterName s)) <$> Sentinel c' ->
  Validate c = Validate c'.
Proof.
  intros Hm Hs Hc Hn. unfold Validate. rewrite <- Hm.
  destruct (Single c) as [s|], (Single c') as [s'|]; try discriminate;
    destruct (Cluster c) as [cl|], (Cluster c') as [cl'|]; try discriminate;
    destruct (Sentinel c) as [sn|], (Sentinel c') as [sn'|]; try discriminate;
    simpl in *;
    repeat match goal with
           | H : Some _ = Some _ |- _ => injection H as H
           end;
    repeat match goal with
           | H : single_Addr _ = single_Addr _ |- _ => rewrite H; clear H
           | H : cluster_Addrs _ = cluster_Addrs _ |- _ => rewrite H; clear H
           | H : sentinel_Addrs _ = sentinel_Addrs _ |- _ => rewrite H; clear H
           | H : sentinel_MasterName _ = sentinel_MasterName _ |- _ => rewrite H; clear H
           end;
    reflexivity.
Qed.

Lemma Validate_frame_witness : Validate negativeDBConfig = Validate DefaultConfig.
Proof.
  apply (Validate_frame negativeDBConfig DefaultConfig); reflexivity.
Defined.

(** ** errors.go *)

Lemma anyIs_true (e : error) (l : list error) :
  anyIs e l = true <-> exists t, t ∈ l /\ errors_Is e t = true.
Proof.
  induction l as [|x l IH]; simpl.
  - split; [discriminate |]. intros (t & Ht & _). now apply elem_of_nil in Ht.
  - destruct (errors_Is e x) eqn:E.
    + split; [| reflexivity]. intros _. exists x. split; [apply list_elem_of_here | exact E].
    + rewrite IH. split.
      * intros (t & Ht & Hi). exists t. split; [now apply list_elem_of_further | exact Hi].
      * intros (t & Ht & Hi). apply elem_of_cons in Ht as [-> | Ht]; [congruence |].
        exists t. auto.
Qed.

Lemma anyIs_incl (e : error) (l1 l2 : list error) :
  l1 ⊆ l2 -> anyIs e l1 = true -> anyIs e l2 = true.
Proof.
  intros Hsub. rewrite !anyIs_true. intros (t & Ht & Hi). exists t. split; auto.
Qed.

Lemma connectionErrors_redis : connectionErrors ⊆ redisErrors.
Proof.
  intros t Ht. unfold connectionErrors in Ht. unfold redisErrors.
  repeat (apply elem_of_cons in Ht as [-> | Ht];
          [repeat (first [apply list_elem_of_here | apply list_elem_of_further]) |]).
  now apply elem_of_nil in Ht.
Qed.

Lemma clusterErrors_redis : clusterErrors ⊆ redisErrors.
Proof.
  intros t Ht. unfold clusterErrors in Ht. unfold redisErrors.
  repeat (apply elem_of_cons in Ht as [-> | Ht];
          [repeat (first [apply list_elem_of_here | apply list_elem_of_further]) |]).
  now apply elem_of_nil in Ht.
Qed.

Lemma sentinelErrors_redis : sentinelErrors ⊆ redisErrors.
Proof.
  intros t Ht. unfold sentinelErrors in Ht. unfold redisErrors.
  repeat (apply elem_of_cons in Ht as [-> | Ht];
          [repeat (first [apply list_elem_of_here | apply list_elem_of_further]) |]).
  now apply elem_of_nil in Ht.
Qed.

(** X4: every error that [IsConnectionError], [IsClusterError] or
    [IsSentinelError] accepts is accepted by [IsRedisError] too, and
    none of the four accepts the nil error. *)
Theorem classified_errors_are_redis_errors (err : option error) :
  (IsConnectionError err = true \/ IsClusterError err = true \/
   IsSentinelError err = true -> IsRedisError err = true) /\
  (err = None ->
   IsRedisError err = false /\ IsConnectionError err = false /\
   IsClusterError err = false /\ IsSentinelError err = false).
Proof.
  split.
  - destruct err as [e|];
      unfold IsConnectionError, IsClusterError, IsSentinelError, IsRedisError.
    + intros [H | [H | H]]; revert H; apply anyIs_incl.
      * apply connectionErrors_redis.
      * apply clusterErrors_redis.
      * apply sentinelErrors_redis.
    + intros [H | [H | H]]; discriminate.
  - intros ->. repeat split.
Qed.

Lemma classified_errors_are_redis_errors_witness :
  IsRedisError (Some (Wrapf "dial" ErrConnectionTimeout)) = true.
Proof.
  apply (proj1 (classified_errors_are_redis_errors
                  (Some (Wrapf "dial" ErrConnectionTimeout)))).
  left. reflexivity.
Defined.

Lemma anyIs_Wrapf (msg : string) (e : error) (l : list error) :
  (forall t, t ∈ l -> forall m x, t <> Wrapf m x) ->
  anyIs (Wrapf msg e) l = anyIs e l.
Proof.
  induction l as [|t l IH]; intros Hl; [reflexivity |].
  cbn [anyIs]. rewrite IH by (intros t' Ht'; apply Hl; now apply list_elem_of_further).
  replace (errors_Is (Wrapf msg e) t) with (errors_Is e t); [reflexivity |].
  cbn [errors_Is]. case_decide as Heq; [| reflexivity].
  exfalso. symmetry in Heq. revert Heq. apply Hl, list_elem_of_here.
Qed.

Lemma redisErrors_plain : forall t, t ∈ redisErrors -> forall m x, t <> Wrapf m x.
Proof.
  intros t Ht m x. unfold redisErrors in Ht.
  repeat (apply elem_of_cons in Ht as [-> | Ht]; [discriminate |]).
  now apply elem_of_nil in Ht.
Qed.

(** X5: the four helpers see through [fmt.Errorf("...: %w", err)]: a
    wrapped error is classified exactly as the error it wraps, at any
    depth of wrapping. *)
Theorem classification_sees_through_wrapping (msg : string) (e : error) :
  IsRedisError (Some (Wrapf msg e)) = IsRedisError (Some e) /\
  IsConnectionError (Some (Wrapf msg e)) = IsConnectionError (Some e) /\
  IsClusterError (Some (Wrapf msg e)) = IsClusterError (Some e) /\
  IsSentinelError (Some (Wrapf msg e)) = IsSentinelError (Some e).
Proof.
  pose proof redisErrors_plain as Hplain.
  unfold IsConnectionError, IsClusterError, IsSentinelError, IsRedisError.
  split; [| split; [| split]]; apply anyIs_Wrapf; intros t Ht; apply Hplain.
  - exact Ht.
  - now apply connectionErrors_redis.
  - now apply clusterErrors_redis.
  - now apply sentinelErrors_redis.
Qed.

(** ** factory.go *)

(** X6: [NewFactory] fails exactly when [Validate] does.  On success
    the factory holds the given configuration ([DefaultConfig] for nil);
    on failure there is no factory, and the error wraps the
    configuration error so that [errors.Is] finds it, [IsRedisError]
    accepts it and [IsConnectionError] does not. *)
Theorem NewFactory_error_is_config_error (config : option Config) :
  match NewFactory config with
  | (Some f, None) =>
      f_config f = match config with Some c => c | None => DefaultConfig end /\
      well_configured (f_config f)
  | (None, Some err) =>
      exists e0,
        Validate (match config with Some c => c | None => DefaultConfig end) = Some e0 /\
        err = Wrapf "invalid config" e0 /\
        e0 ∈ configErrors /\
        errors_Is err e0 = true /\
        IsRedisError (Some err) = true /\
        IsConnectionError (Some err) = false
  | _ => False
  end.
Proof.
  unfold NewFactory.
  set (c := match config with Some c => c | None => DefaultConfig end).
  destruct (Validate c) as [e0|] eqn:E.
  - exists e0. split; [reflexivity | split; [reflexivity |]].
    apply Validate_error_names in E.
    destruct E; (split; [unfold configErrors; set_solver | repeat split]).
  - split; [reflexivity | now apply Validate_ok_iff].
Qed.

Lemma updateAll_valid (configs : list (option Config)) : forall f,
  Validate (f_config f) = None -> Validate (f_config (updateAll f configs)) = None.
Proof.
  induction configs as [|config configs IH]; intros f Hf; [exact Hf |].
  simpl. apply IH. unfold UpdateConfig.
  destruct config as [c|]; [| exact Hf].
  destruct (Validate c) eqn:E; [exact Hf | exact E].
Qed.

(** X7: a factory stays valid under [UpdateConfig]: an update is
    either accepted, and then the new configuration validates, or
    refused with an error (nil and invalid configurations), and then the
    factory is unchanged; so after any series of updates the factory
    holds a validated configuration and [CreateClient] returns. *)
Theorem UpdateConfig_keeps_valid (f : Factory) (configs : list (option Config)) :
  Validate (f_config f) = None ->
  Validate (f_config (updateAll f configs)) = None /\
  (forall w, exists b, CreateClient w (updateAll f configs) = Returned b) /\
  (forall config,
     match UpdateConfig f config with
     | (f', None) => config = Some (f_config f') /\ Validate (f_config f') = None
     | (f', Some err) =>
         f' = f /\
         (config = None \/
          exists c e0, config = Some c /\ Validate c = Some e0 /\
                       err = Wrapf "invalid config" e0)
     end).
Proof.
  intros Hf.
  assert (Hv : Validate (f_config (updateAll f configs)) = None)
    by now apply updateAll_valid.
  split; [exact Hv | split].
  - intros w. now apply CreateClient_returns.
  - intros [c|]; simpl; [| auto].
    destruct (Validate c) as [e0|] eqn:E; simpl.
    + split; [reflexivity |]. right. eauto.
    + auto.
Qed.

Lemma UpdateConfig_keeps_valid_witness :
  Validate (f_config (updateAll {| f_config := DefaultConfig |}
                        [None; Some negativeDBConfig;
                         Some {| mode := "standalone"; Single := None; Cluster := None;
                                 Sentinel := None; Common := Common DefaultConfig |}]))
    = None.
Proof.
  apply (proj1 (UpdateConfig_keeps_valid {| f_config := DefaultConfig |} _ eq_refl)).
Defined.

(** X8: the convenience constructors fail before anything is built
    when an argument is missing: an empty address, an empty address
    list or an empty master name gives no client, no event in the
    outside world, and the wrapped configuration error naming what is
    missing; with sentinels, missing addresses are reported before a
    missing master name. *)
Theorem convenience_constructors_fail_fast (w : World) (db : Z) (password : string) :
  Cache.NewSingleClient w "" db password =
    Returned ([], (None, Some (Wrapf "invalid config" ErrMissingAddr))) /\
  Cache.NewClusterClient w [] password =
    Returned ([], (None, Some (Wrapf "invalid config" ErrMissingAddrs))) /\
  (forall masterName,
     Cache.NewSentinelClient w [] masterName db password =
       Returned ([], (None, Some (Wrapf "invalid config" ErrMissingAddrs)))) /\
  (forall addr addrs,
     Cache.NewSentinelClient w (addr :: addrs) "" db password =
       Returned ([], (None, Some (Wrapf "invalid config" ErrMissingMasterName)))).
Proof. repeat split. Qed.

(** X9: with their arguments present, the convenience constructors
    build the backend of their mode from exactly those arguments and
    the defaults: the given address (list), database, master name and
    password, a pool of ten connections, no TLS, three redirects for a
    cluster; the client they may return has an empty key prefix and a
    default TTL of 24 hours. *)
Theorem convenience_constructors_build (w : World) (db : Z) (password : string) :
  (forall addr, addr <> "" ->
     exists opts cfg,
       Cache.NewSingleClient w addr db password =
         Returned (connect w (NewClient opts) "failed to connect to redis"
                     (fun rdb => SingleClientOf rdb cfg)) /\
       opt_Addr opts = addr /\ opt_DB opts = db /\
       o_Password (opt_pool opts) = password /\
       o_PoolSize (opt_pool opts) = 10 /\ o_TLSConfig (opt_pool opts) = None /\
       KeyPrefix (Common cfg) = "" /\ DefaultTTL (Common cfg) = 24 * Hour) /\
  (forall addrs, addrs <> [] ->
     exists opts cfg,
       Cache.NewClusterClient w addrs password =
         Returned (connect w (NewClusterClient opts) "failed to connect to redis cluster"
                     (fun rdb => ClusterClientOf rdb cfg)) /\
       copt_Addrs opts = addrs /\ copt_MaxRedirects opts = 3 /\
       o_Password (copt_pool opts) = password /\
       o_PoolSize (copt_pool opts) = 10 /\ o_TLSConfig (copt_pool opts) = None /\
       KeyPrefix (Common cfg) = "" /\ DefaultTTL (Common cfg) = 24 * Hour) /\
  (forall addrs masterName, addrs <> [] -> masterName <> "" ->
     exists opts cfg,
       Cache.NewSentinelClient w addrs masterName db password =
         Returned (connect w (NewFailoverClient opts) "failed to connect to redis sentinel"
                     (fun rdb => SentinelClientOf rdb cfg)) /\
       fopt_SentinelAddrs opts = addrs /\ fopt_MasterName opts = masterName /\
       fopt_DB opts = db /\ fopt_SentinelPassword opts = "" /\
       o_Password (fopt_pool opts) = password /\
       o_PoolSize (fopt_pool opts) = 10 /\ o_TLSConfig (fopt_pool opts) = None /\
       KeyPrefix (Common cfg) = "" /\ DefaultTTL (Common cfg) = 24 * Hour).
Proof.
  split; [| split].
  - intros addr Ha. eexists _, _.
    split;
      [ unfold Cache.NewSingleClient, createFrom, NewFactory, Validate; simpl;
        destruct (decide (addr = "")); [contradiction | reflexivity]
      | repeat split; reflexivity ].
  - intros addrs Ha. eexists _, _.
    split;
      [ unfold Cache.NewClusterClient, createFrom, NewFactory, Validate; simpl;
        destruct addrs; [contradiction | reflexivity]
      | repeat split; reflexivity ].
  - intros addrs masterName Ha Hm. eexists _, _.
    split;
      [ unfold Cache.NewSentinelClient, createFrom, NewFactory, Validate; simpl;
        destruct addrs; [contradiction |]; simpl;
        destruct (decide (masterName = "")); [contradiction | reflexivity]
      | repeat split; reflexivity ].
Qed.

Lemma convenience_constructors_build_witness :
  exists opts cfg,
    Cache.NewSingleClient reachable "10.0.0.5:6379" 2 "secret" =
      Returned (connect reachable (NewClient opts) "failed to connect to redis"
                  (fun rdb => SingleClientOf rdb cfg)) /\
    opt_Addr opts = "10.0.0.5:6379" /\ opt_DB opts = 2 /\
    o_Password (opt_pool opts) = "secret" /\
    o_PoolSize (opt_pool opts) = 10 /\ o_TLSConfig (opt_pool opts) = None /\
    KeyPrefix (Common cfg) = "" /\ DefaultTTL (Common cfg) = 24 * Hour.
Proof.
  apply (proj1 (convenience_constructors_build reachable 2 "secret") "10.0.0.5:6379").
  discriminate.
Defined.

Lemma builtBackend_connect (w : World) (rdb : Backend) (failure : string)
    (mk : Backend -> Client) :
  builtBackend (connect w rdb failure mk) = Some rdb.
Proof. unfold connect. now destruct (Ping w rdb). Qed.

(** The three constructors, seen from [CreateClient]: which mode ran,
    which options it got past the TLS block, and what it connected. *)
Lemma CreateClient_built (w : World) (f : Factory) (b : Built) (rdb : Backend) :
  CreateClient w f = Returned b -> builtBackend b = Some rdb ->
  exists pool,
    configureTLS w (Common (f_config f)) (poolOptions (Common (f_config f))) = inl pool /\
    ((exists s, mode (f_config f) = ModeSingle /\ Single (f_config f) = Some s /\
                rdb = NewClient {| opt_Addr := single_Addr s; opt_DB := single_DB s;
                                   opt_pool := pool |} /\
                b = connect w rdb "failed to connect to redis"
                      (fun rdb => SingleClientOf rdb (f_config f))) \/
     (exists cl, mode (f_config f) = ModeCluster /\ Cluster (f_config f) = Some cl /\
                 rdb = NewClusterClient
                         {| copt_Addrs := cluster_Addrs cl;
                            copt_MaxRedirects :=
                              if (cluster_MaxRedirects cl =? 0)%Z then 3
                              else cluster_MaxRedirects cl;
                            copt_ReadOnly := cluster_ReadOnly cl;
                            copt_RouteByLatency := cluster_RouteByLatency cl;
                            copt_RouteRandomly := cluster_RouteRandomly cl;
                            copt_pool := pool |} /\
                 b = connect w rdb "failed to connect to redis cluster"
                       (fun rdb => ClusterClientOf rdb (f_config f))) \/
     (exists s, mode (f_config f) = ModeSentinel /\ Sentinel (f_config f) = Some s /\
                rdb = NewFailoverClient
                        {| fopt_MasterName := sentinel_MasterName s;
                           fopt_SentinelAddrs := sentinel_Addrs s;
                           fopt_SentinelPassword := sentinel_SentinelPassword s;
                           fopt_DB := sentinel_DB s;
                           fopt_pool := pool |} /\
                b = connect w rdb "failed to connect to redis sentinel"
                      (fun rdb => SentinelClientOf rdb (f_config f)))).
Proof.
  unfold CreateClient, createSingleClient, createClusterClient, createSentinelClient.
  intros H Hb.
  destruct (configureTLS w (Common (f_config f)) (poolOptions (Common (f_config f))))
    as [pool|terr] eqn:Et.
  - exists pool. split; [reflexivity |].
    repeat case_decide.
    + destruct (Single (f_config f)) as [s|] eqn:Es; [| discriminate].
      injection H as <-. rewrite builtBackend_connect in Hb. injection Hb as <-.
      left. eauto.
    + destruct (Cluster (f_config f)) as [cl|] eqn:Es; [| discriminate].
      injection H as <-. rewrite builtBackend_connect in Hb. injection Hb as <-.
      right; left. eauto.
    + destruct (Sentinel (f_config f)) as [s|] eqn:Es; [| discriminate].
      injection H as <-. rewrite builtBackend_connect in Hb. injection Hb as <-.
      right; right. eauto.
    + injection H as <-. discriminate.
  - exfalso. repeat case_decide.
    + destruct (Single (f_config f)); [| discriminate]. injection H as <-. discriminate.
    + destruct (Cluster (f_config f)); [| discriminate]. injection H as <-. discriminate.
    + destruct (Sentinel (f_config f)); [| discriminate]. injection H as <-. discriminate.
    + injection H as <-. discriminate.
Qed.



Lemma configureTLS_off (w : World) (c : CommonConfig) (p : PoolOptions) :
  (TLS c = None \/ exists t, TLS c = Some t /\ tls_Enabled t = false) ->
  configureTLS w c p = inl p.
Proof.
  unfold configureTLS. intros [-> | (t & -> & ->)]; reflexivity.
Qed.

Lemma connect_same_ping (w w' : World) rdb failure mk :
  (forall rdb, Ping w rdb = Ping w' rdb) ->
  connect w rdb failure mk = connect w' rdb failure mk.
Proof. intros H. unfold connect. now rewrite H. Qed.

(** X11: without TLS in the configuration, or with TLS present but not
    enabled, the constructors never read a certificate file: the run of
    [CreateClient] is the same in any two worlds that answer the probe
    alike, and the backend is built without a TLS configuration. *)
Theorem no_TLS_reads_no_certificate (w w' : World) (f : Factory) :
  (forall rdb, Ping w rdb = Ping w' rdb) ->
  (TLS (Common (f_config f)) = None \/
   exists t, TLS (Common (f_config f)) = Some t /\ tls_Enabled t = false) ->
  CreateClient w f = CreateClient w' f /\
  (forall b rdb, CreateClient w f = Returned b -> builtBackend b = Some rdb ->
     o_TLSConfig (backend_pool rdb) = None).
Proof.
  intros Hping Hoff. split.
  - unfold CreateClient, createSingleClient, createClusterClient, createSentinelClient.
    rewrite !(configureTLS_off w), !(configureTLS_off w') by exact Hoff.
    repeat case_decide; try reflexivity.
    + destruct (Single (f_config f)); [| reflexivity]. f_equal.
      now apply connect_same_ping.
    + destruct (Cluster (f_config f)); [| reflexivity]. f_equal.
      now apply connect_same_ping.
    + destruct (Sentinel (f_config f)); [| reflexivity]. f_equal.
      now apply connect_same_ping.
  - intros b rdb H Hb.
    destruct (CreateClient_built w f b rdb H Hb) as (pool & Ht & Hcases).
    rewrite configureTLS_off in Ht by exact Hoff. injection Ht as <-.
    destruct Hcases as [(s & _ & _ & -> & _) | [(cl & _ & _ & -> & _) | (s & _ & _ & -> & _)]];
      reflexivity.
Qed.

Lemma no_TLS_reads_no_certificate_witness :
  CreateClient reachable {| f_config := DefaultConfig |} =
    CreateClient noCertificates {| f_config := DefaultConfig |}.
Proof.
  apply (no_TLS_reads_no_certificate reachable noCertificates
           {| f_config := DefaultConfig |}).
  - reflexivity.
  - left. reflexivity.
Defined.

(** X12: when TLS is enabled with a certificate and a key file named
    and the pair cannot be loaded, [CreateClient] on a validated
    configuration builds nothing, probes nothing, and returns no client
    and the load error wrapped twice, whatever the mode. *)
Theorem certificate_failure_builds_nothing (w : World) (f : Factory)
    (t : TLSConfig) (cert : Certificate) (e : error) :
  Validate (f_config f) = None ->
  TLS (Common (f_config f)) = Some t ->
  tls_Enabled t = true ->
  tls_CertFile t <> "" -> tls_KeyFile t <> "" ->
  LoadX509KeyPair w (tls_CertFile t) (tls_KeyFile t) = (cert, Some e) ->
  CreateClient w f =
    Returned ([], (None, Some (Wrapf "failed to build TLS config"
                                 (Wrapf "failed to load certificate" e)))).
Proof.
  intros Hv Ht Hen Hc Hk Hload.
  assert (Htls : forall p, configureTLS w (Common (f_config f)) p =
                           inr (Wrapf "failed to build TLS config"
                                  (Wrapf "failed to load certificate" e))).
  { intros p. unfold configureTLS, buildTLSConfig. rewrite Ht, Hen, Hload.
    destruct (String.eqb_spec (tls_CertFile t) ""); [contradiction |].
    destruct (String.eqb_spec (tls_KeyFile t) ""); [contradiction |].
    reflexivity. }
  apply Validate_ok_iff in Hv.
  unfold CreateClient, createSingleClient, createClusterClient, createSentinelClient.
  destruct Hv as [[Hm (s & Hs & _)] | [[Hm (cl & Hs & _)] | [Hm (s & Hs & _)]]];
    rewrite Hm, Hs, Htls; reflexivity.
Qed.

Lemma certificate_failure_builds_nothing_witness :
  CreateClient noCertificates {| f_config := tlsConfigExample |} =
    Returned ([], (None, Some (Wrapf "failed to build TLS config"
                                 (Wrapf "failed to load certificate"
                                    (DriverError "open cert.pem: no such file"))))).
Proof.
  eapply (certificate_failure_builds_nothing noCertificates
            {| f_config := tlsConfigExample |});
    try reflexivity; discriminate.
Defined.

Lemma configureTLS_withoutUnread (w : World) (c : Config) (p : PoolOptions) :
  configureTLS w (Common (withoutUnread c)) p = configureTLS w (Common c) p.
Proof.
  unfold configureTLS. simpl. destruct (TLS (Common c)) as [t|]; reflexivity.
Qed.

Lemma observable_connect (w : World) (rdb : Backend) (failure : string)
    (mk mk' : Backend -> Client) :
  client_backend (mk rdb) = client_backend (mk' rdb) ->
  observable (Returned (connect w rdb failure mk)) =
    observable (Returned (connect w rdb failure mk')).
Proof.
  intros H. unfold connect. destruct (Ping w rdb); simpl; [reflexivity |].
  now rewrite H.
Qed.

(** X13: the connection age, the idle timeout, the metrics and tracing
    switches and the CA file of a configuration are never passed to the
    driver: clearing them changes neither the events of [CreateClient],
    nor the backend it builds and returns, nor its error. *)
Theorem unread_settings_do_not_matter (w : World) (f : Factory) :
  observable (CreateClient w {| f_config := withoutUnread (f_config f) |}) =
    observable (CreateClient w f).
Proof.
  unfold CreateClient, createSingleClient, createClusterClient, createSentinelClient.
  cbn [f_config].
  rewrite !configureTLS_withoutUnread.
  change (mode (withoutUnread (f_config f))) with (mode (f_config f)).
  change (Single (withoutUnread (f_config f))) with (Single (f_config f)).
  change (Cluster (withoutUnread (f_config f))) with (Cluster (f_config f)).
  change (Sentinel (withoutUnread (f_config f))) with (Sentinel (f_config f)).
  change (poolOptions (Common (withoutUnread (f_config f))))
    with (poolOptions (Common (f_config f))).
  destruct (configureTLS w (Common (f_config f)) (poolOptions (Common (f_config f))))
    as [pool|terr];
    repeat case_decide; try reflexivity.
  - destruct (Single (f_config f)); [| reflexivity]. now apply observable_connect.
  - destruct (Cluster (f_config f)); [| reflexivity]. now apply observable_connect.
  - destruct (Sentinel (f_config f)); [| reflexivity]. now apply observable_connect.
Qed.

(** X14: the client [CreateClient] returns is of the kind its mode
    names, wraps the backend of that kind that was probed, and holds the
    factory's configuration, so the key prefix and default TTL it
    applies are the configured ones. *)
Theorem client_kind_matches_mode (w : World) (f : Factory) (b : Built) (c : Client) :
  CreateClient w f = Returned b ->
  fst (snd b) = Some c ->
  client_config c = f_config f /\
  fst b = [EvNew (client_backend c); EvPing (client_backend c)] /\
  match c with
  | SingleClientOf rdb _ =>
      mode (f_config f) = ModeSingle /\ exists o, rdb = NewClient o
  | ClusterClientOf rdb _ =>
      mode (f_config f) = ModeCluster /\ exists o, rdb = NewClusterClient o
  | SentinelClientOf rdb _ =>
      mode (f_config f) = ModeSentinel /\ exists o, rdb = NewFailoverClient o
  end.
Proof.
  intros H Hc.
  assert (Hb : exists rdb, builtBackend b = Some rdb).
  { unfold CreateClient, createSingleClient, createClusterClient, createSentinelClient in H.
    destruct (configureTLS w (Common (f_config f)) (poolOptions (Common (f_config f))));
      repeat case_decide;
      repeat match goal with
             | H : context [match ?x with Some _ => _ | None => _ end] |- _ =>
                 destruct x; [| discriminate]
             end;
      injection H as <-;
      try (eexists; apply builtBackend_connect);
      simpl in Hc; discriminate. }
  destruct Hb as [rdb Hb].
  destruct (CreateClient_built w f b rdb H Hb) as (pool & _ & Hcases).
  destruct Hcases as [(s & Hm & _ & Hr & ->) | [(cl & Hm & _ & Hr & ->) | (s & Hm & _ & Hr & ->)]];
    unfold connect in Hc |- *; destruct (Ping w rdb); simpl in Hc; try discriminate;
    injection Hc as <-; simpl; repeat split; eauto.
Qed.

Lemma client_kind_matches_mode_witness :
  exists c,
    fst (snd (connect reachable
                (NewClient {| opt_Addr := "localhost:6379"; opt_DB := 0;
                              opt_pool := poolOptions (Common DefaultConfig) |})
                "failed to connect to redis"
                (fun rdb => SingleClientOf rdb DefaultConfig))) = Some c /\
    client_config c = DefaultConfig.
Proof.
  eexists. split; [reflexivity |].
  eapply (client_kind_matches_mode reachable {| f_config := DefaultConfig |});
    reflexivity.
Defined.

(** ** single_client.go and client.go *)

Lemma prefixKeys_loop_spec (c : Config) (keys : list string) : forall done,
  prefixKeys_loop c (length done) keys (done ++ replicate (length keys) "") =
    done ++ (GetKeyWithPrefix c <$> keys).
Proof.
  induction keys as [|key keys IH]; intros done; [reflexivity |].
  cbn [prefixKeys_loop length replicate]. rewrite insert_at_length.
  specialize (IH (done ++ [GetKeyWithPrefix c key])).
  rewrite length_app in IH. simpl length in IH.
  replace (length done + 1)%nat with (S (length done)) in IH by lia.
  rewrite <- !app_assoc in IH. exact IH.
Qed.

Lemma prefixKeys_fmap (c : Config) (keys : list string) :
  prefixKeys c keys = GetKeyWithPrefix c <$> keys.
Proof. apply (prefixKeys_loop_spec c keys []). Qed.

(** X15: every multi-key command sends the store one prefixed key per
    key, in the order given: the list has the same length, its [i]-th
    element is the prefixed [i]-th key, distinct keys stay distinct, and
    an empty key list is sent as an empty list.  [Eval] and [EvalSha]
    prefix their keys in this way and pass the script and the arguments
    through unchanged. *)
Theorem multi_key_commands_prefix_each_key (c : Commands.t) (keys : list string) :
  let cfg := Commands.config c in
  prefixKeys cfg keys = GetKeyWithPrefix cfg <$> keys /\
  length (prefixKeys cfg keys) = length keys /\
  (forall i key, keys !! i = Some key ->
     prefixKeys cfg keys !! i = Some (GetKeyWithPrefix cfg key)) /\
  (NoDup (prefixKeys cfg keys) <-> NoDup keys) /\
  Commands.MGet c keys =
    Result (redis_MGet (Commands.client c) (GetKeyWithPrefix cfg <$> keys)) /\
  Commands.Del c keys =
    Result (redis_Del (Commands.client c) (GetKeyWithPrefix cfg <$> keys)) /\
  Commands.Exists c keys =
    Result (redis_Exists (Commands.client c) (GetKeyWithPrefix cfg <$> keys)) /\
  Commands.SInter c keys =
    Result (redis_SInter (Commands.client c) (GetKeyWithPrefix cfg <$> keys)) /\
  Commands.SUnion c keys =
    Result (redis_SUnion (Commands.client c) (GetKeyWithPrefix cfg <$> keys)) /\
  Commands.SDiff c keys =
    Result (redis_SDiff (Commands.client c) (GetKeyWithPrefix cfg <$> keys)) /\
  (forall script args,
     Commands.Eval c script keys args =
       Result (redis_Eval (Commands.client c) script
                 (GetKeyWithPrefix cfg <$> keys) args) /\
     Commands.EvalSha c script keys args =
       Result (redis_EvalSha (Commands.client c) script
                 (GetKeyWithPrefix cfg <$> keys) args)).
Proof.
  intros cfg.
  unfold Commands.MGet, Commands.Del, Commands.Exists, Commands.SInter,
    Commands.SUnion, Commands.SDiff, Commands.Eval, Commands.EvalSha.
  fold cfg. rewrite !prefixKeys_fmap.
  split; [reflexivity |].
  split; [apply length_fmap |].
  split; [intros i key Hk; now rewrite list_lookup_fmap, Hk |].
  split; [apply (NoDup_fmap (GetKeyWithPrefix cfg)) |].
  repeat split.
Qed.

Lemma multi_key_commands_prefix_each_key_witness :
  prefixKeys appConfig ["a"; "b"] !! 1%nat = Some (GetKeyWithPrefix appConfig "b") /\
  NoDup (prefixKeys appConfig ["a"; "b"]).
Proof.
  pose proof (multi_key_commands_prefix_each_key appCommands ["a"; "b"])
    as (_ & _ & Hi & Hn & _).
  split.
  - apply (Hi 1%nat "b"). reflexivity.
  - apply Hn. apply NoDup_cons. split.
    + intros H. apply list_elem_of_singleton in H. discriminate.
    + apply NoDup_singleton.
Defined.

Lemma MSet_by_pairs_pairsOf (c : Config) (ks : list string) : forall vs,
  length ks = length vs ->
  MSet_by_pairs c (pairsOf ks vs) = Returned (pairsOf (GetKeyWithPrefix c <$> ks) vs).
Proof.
  induction ks as [|k ks IH]; intros [|v vs] Hlen; try discriminate; [reflexivity |].
  simpl. rewrite IH by (simpl in Hlen; lia). reflexivity.
Qed.

Lemma pairsOf_length (ks : list string) : forall vs,
  length ks = length vs -> length (pairsOf ks vs) = (2 * length ks)%nat.
Proof.
  induction ks as [|k ks IH]; intros [|v vs] Hlen; try discriminate; [reflexivity |].
  simpl. rewrite IH by (simpl in Hlen; lia). lia.
Qed.

(** X16: [MSet] and [MGet] agree on the keys: for keys [ks] with one
    value each, [MSet] never panics and forwards the pairs of the
    prefixed keys with the values unchanged, and those prefixed keys, in
    that order, are the ones [MGet] asks the store for. *)
Theorem MSet_writes_the_keys_MGet_reads (c : Config) (ks : list string)
    (vs : list Iface) :
  length ks = length vs ->
  MSet_pairs c (pairsOf ks vs) = Returned (pairsOf (prefixKeys c ks) vs) /\
  (forall cl : Commands.t,
     Commands.config cl = c ->
     Commands.MGet cl ks = Result (redis_MGet (Commands.client cl) (prefixKeys c ks))) /\
  length (pairsOf (prefixKeys c ks) vs) = (2 * length ks)%nat.
Proof.
  intros Hlen. rewrite MSet_pairs_by_pairs, prefixKeys_fmap.
  split; [now apply MSet_by_pairs_pairsOf | split].
  - intros cl <-. unfold Commands.MGet. now rewrite prefixKeys_fmap.
  - rewrite pairsOf_length by (now rewrite length_fmap).
    now rewrite length_fmap.
Qed.

Lemma MSet_writes_the_keys_MGet_reads_witness :
  MSet_pairs appConfig (pairsOf ["k1"; "k2"] [IString "v1"; IInt 2]) =
    Returned (pairsOf (prefixKeys appConfig ["k1"; "k2"]) [IString "v1"; IInt 2]).
Proof.
  apply (MSet_writes_the_keys_MGet_reads appConfig ["k1"; "k2"] [IString "v1"; IInt 2]).
  reflexivity.
Defined.

Lemma missTranslated_intro (r : Reply string) :
  missTranslated r
    (if decide (rErr r = Some RedisNil) then ("", Some ErrKeyNotFound) else Result r).
Proof.
  unfold missTranslated, Result. case_decide as H; simpl.
  - repeat split; try discriminate; try contradiction.
  - repeat split; try contradiction; try assumption.
    all: intros Hn; now rewrite Hn in *.
Qed.

(** X17: [GetSet], [HGet], [LPop], [RPop], [LIndex], [SPop] and
    [SRandMember] translate a miss like [Get] does: the store's
    [redis.Nil] becomes the empty string with [ErrKeyNotFound], any
    other answer is returned as it is; none of them ever hands
    [redis.Nil] to the caller, and a nil error always comes with the
    value the store returned. *)
Theorem lookups_translate_a_miss (c : Commands.t) (key : string) :
  let k := GetKeyWithPrefix (Commands.config c) key in
  (forall value,
     missTranslated (redis_GetSet (Commands.client c) k value)
       (Commands.GetSet c key value)) /\
  (forall field,
     missTranslated (redis_HGet (Commands.client c) k field) (Commands.HGet c key field)) /\
  missTranslated (redis_LPop (Commands.client c) k) (Commands.LPop c key) /\
  missTranslated (redis_RPop (Commands.client c) k) (Commands.RPop c key) /\
  (forall index,
     missTranslated (redis_LIndex (Commands.client c) k index)
       (Commands.LIndex c key index)) /\
  missTranslated (redis_SPop (Commands.client c) k) (Commands.SPop c key) /\
  missTranslated (redis_SRandMember (Commands.client c) k) (Commands.SRandMember c key).
Proof.
  intros k.
  do 6 (split; [intros; apply missTranslated_intro |]).
  apply missTranslated_intro.
Qed.

Lemma lookups_translate_a_miss_witness :
  Commands.LPop appCommands "queue" = ("", Some ErrKeyNotFound).
Proof.
  pose proof (lookups_translate_a_miss appCommands "queue")
    as (_ & _ & (H & _) & _).
  apply H. reflexivity.
Defined.

Lemma redisMembers_loop_spec (members : list ZMember) : forall done,
  redisMembers_loop (length done) members
    (done ++ replicate (length members) {| z_Score := 0; z_Member := INil |}) =
    done ++ (toRedisZ <$> members).
Proof.
  induction members as [|m members IH]; intros done; [reflexivity |].
  cbn [redisMembers_loop length replicate]. rewrite insert_at_length.
  specialize (IH (done ++ [toRedisZ m])).
  rewrite length_app in IH. simpl length in IH.
  replace (length done + 1)%nat with (S (length done)) in IH by lia.
  rewrite <- !app_assoc in IH. exact IH.
Qed.

Lemma members_loop_spec (result : list redisZ) : forall done,
  members_loop (length done) result
    (done ++ replicate (length result) {| Score := 0; Member := INil |}) =
    done ++ (toZMember <$> result).
Proof.
  induction result as [|z result IH]; intros done; [reflexivity |].
  cbn [members_loop length replicate]. rewrite insert_at_length.
  specialize (IH (done ++ [toZMember z])).
  rewrite length_app in IH. simpl length in IH.
  replace (length done + 1)%nat with (S (length done)) in IH by lia.
  rewrite <- !app_assoc in IH. exact IH.
Qed.

Lemma membersOf_fmap (result : list redisZ) : membersOf result = toZMember <$> result.
Proof. apply (members_loop_spec result []). Qed.

Lemma redisMembers_fmap (members : list ZMember) :
  redisMembers members = toRedisZ <$> members.
Proof. apply (redisMembers_loop_spec members []). Qed.

(** X18: the sorted-set conversions keep every member: [ZAdd] sends one
    [redis.Z] per member, in order, with the same score and value, and
    [ZRangeWithScores] and [ZRevRangeWithScores] return one member per
    [redis.Z] the store answered, in the store's order, with the same
    score and value, so the members sent come back unchanged; when the
    store answers with an error they return no members and that
    error. *)
Theorem sorted_set_members_preserved (c : Commands.t) (key : string) :
  (forall members,
     Commands.ZAdd c key members =
       Result (redis_ZAdd (Commands.client c)
                 (GetKeyWithPrefix (Commands.config c) key) (toRedisZ <$> members)) /\
     length (redisMembers members) = length members /\
     membersOf (redisMembers members) = members) /\
  (forall start stop,
     let r := redis_ZRangeWithScores (Commands.client c)
                (GetKeyWithPrefix (Commands.config c) key) start stop in
     (forall err, rErr r = Some err ->
        Commands.ZRangeWithScores c key start stop = (None, Some err)) /\
     (rErr r = None ->
        exists members,
          Commands.ZRangeWithScores c key start stop = (Some members, None) /\
          length members = length (rVal r) /\
          Score <$> members = z_Score <$> rVal r /\
          Member <$> members = z_Member <$> rVal r)) /\
  (forall start stop,
     let r := redis_ZRevRangeWithScores (Commands.client c)
                (GetKeyWithPrefix (Commands.config c) key) start stop in
     (forall err, rErr r = Some err ->
        Commands.ZRevRangeWithScores c key start stop = (None, Some err)) /\
     (rErr r = None ->
        exists members,
          Commands.ZRevRangeWithScores c key start stop = (Some members, None) /\
          length members = length (rVal r) /\
          Score <$> members = z_Score <$> rVal r /\
          Member <$> members = z_Member <$> rVal r)).
Proof.
  assert (Hconv : forall result : list redisZ,
            length (membersOf result) = length result /\
            Score <$> membersOf result = z_Score <$> result /\
            Member <$> membersOf result = z_Member <$> result).
  { intros result. rewrite membersOf_fmap, length_fmap, <- !list_fmap_compose.
    repeat split. }
  split; [| split].
  - intros members. unfold Commands.ZAdd.
    rewrite redisMembers_fmap, membersOf_fmap, length_fmap.
    split; [reflexivity | split; [reflexivity |]].
    rewrite <- list_fmap_compose.
    rewrite <- (list_fmap_id members) at 2.
    apply list_fmap_ext. intros i [s m] _. reflexivity.
  - intros start stop r. unfold Commands.ZRangeWithScores. fold r. split.
    + intros err ->. reflexivity.
    + intros ->. eexists. split; [reflexivity | apply Hconv].
  - intros start stop r. unfold Commands.ZRevRangeWithScores. fold r. split.
    + intros err ->. reflexivity.
    + intros ->. eexists. split; [reflexivity | apply Hconv].
Qed.

Lemma sorted_set_members_preserved_witness :
  exists members,
    Commands.ZRangeWithScores appCommands "scores" 0 (-1) = (Some members, None) /\
    length members = 3%nat /\
    Member <$> members = [IString "B"; IString "C"; IString "A"] /\
    Commands.ZRevRangeWithScores appCommands "scores" 0 (-1) =
      (None, Some (DriverError "i/o timeout")).
Proof.
  pose proof (sorted_set_members_preserved appCommands "scores") as (_ & Hr & Hv).
  destruct (proj2 (Hr 0 (-1)) eq_refl) as (members & Heq & Hlen & _ & Hm).
  exists members. split; [exact Heq | split; [exact Hlen | split; [exact Hm |]]].
  apply (proj1 (Hv 0 (-1))). reflexivity.
Defined.

Lemma stripPrefix_prefixed (c : Config) (ks : list string) :
  (forall k, k ∈ ks -> k <> "") ->
  stripPrefix c (GetKeyWithPrefix c <$> ks) = ks.
Proof.
  intros Hne. unfold stripPrefix, GetKeyWithPrefix.
  case_decide as Hp.
  - induction ks as [|k ks IH]; [reflexivity |].
    rewrite fmap_cons. f_equal. apply IH.
    intros k' Hk'. apply Hne. now apply list_elem_of_further.
  - induction ks as [|k ks IH]; [reflexivity |].
    rewrite !fmap_cons. f_equal.
    + apply stripKey_withPrefix, Hne, list_elem_of_here.
    + apply IH. intros k' Hk'. apply Hne. now apply list_elem_of_further.
Qed.

(** X19: a listing gives the application its own keys back: when the
    store answers [Keys] or [Scan] with the prefixed forms of non-empty
    keys, the caller gets exactly those keys, in order, and [Scan] hands
    the store's cursor through; whatever the store lists, as many keys
    come back as it listed; on an error no keys come back. *)
Theorem listing_returns_the_application_keys (c : RedisClient.t) (pattern : string) :
  let cfg := RedisClient.config c in
  let r := redis_Keys (RedisClient.client c) (GetKeyWithPrefix cfg pattern) in
  (forall ks,
     (forall k, k ∈ ks -> k <> "") ->
     rErr r = None -> rVal r = prefixKeys cfg ks ->
     SingleClient.Keys c pattern = (Some ks, None)) /\
  (rErr r = None ->
   exists keys, SingleClient.Keys c pattern = (Some keys, None) /\
                length keys = length (rVal r)) /\
  (forall err, rErr r = Some err -> SingleClient.Keys c pattern = (None, Some err)) /\
  (forall cursor count,
     let s := redis_Scan (RedisClient.client c) cursor
                (GetKeyWithPrefix cfg pattern) count in
     snd (fst (SingleClient.Scan c cursor pattern count)) = snd (rVal s) /\
     snd (SingleClient.Scan c cursor pattern count) = rErr s /\
     (forall ks,
        (forall k, k ∈ ks -> k <> "") ->
        rErr s = None -> fst (rVal s) = prefixKeys cfg ks ->
        fst (fst (SingleClient.Scan c cursor pattern count)) = Some ks) /\
     (forall err, rErr s = Some err ->
        fst (fst (SingleClient.Scan c cursor pattern count)) = None)).
Proof.
  intros cfg r.
  unfold SingleClient.Keys, RedisClient.Keys, SingleClient.Scan, RedisClient.Scan.
  fold cfg. fold r.
  split; [| split; [| split]].
  - intros ks Hne He Hv. rewrite He, Hv, prefixKeys_fmap.
    now rewrite stripPrefix_prefixed.
  - intros He. rewrite He. eexists. split; [reflexivity |].
    unfold stripPrefix. case_decide; [reflexivity | apply length_fmap].
  - intros err He. now rewrite He.
  - intros cursor count. cbv zeta.
    set (s := redis_Scan (RedisClient.client c) cursor (GetKeyWithPrefix cfg pattern) count).
    destruct (rErr s) as [err|] eqn:E; simpl.
    + repeat split; try discriminate.
    + repeat split; try discriminate.
      intros ks Hne _ Hv. rewrite Hv, prefixKeys_fmap.
      now rewrite stripPrefix_prefixed.
Qed.

Lemma listing_returns_the_application_keys_witness :
  exists keys,
    SingleClient.Keys appClient "*" = (Some keys, None) /\ length keys = 2%nat.
Proof.
  pose proof (listing_returns_the_application_keys appClient "*") as (_ & H & _).
  apply H. reflexivity.
Defined.

(** ** pipeliner.go *)

Lemma omap_ext_in {A B} (f g : A -> option B) (l : list A) :
  (forall x, x ∈ l -> f x = g x) -> omap f l = omap g l.
Proof.
  induction l as [|x l IH]; intros H; [reflexivity |].
  assert (IH' : omap f l = omap g l).
  { apply IH. intros y Hy. apply H. now apply list_elem_of_further. }
  simpl. rewrite (H x) by apply list_elem_of_here.
  destruct (g x); [f_equal |]; exact IH'.
Qed.

Lemma enqueueAll_bounded (cfg : Config) (cs : list Call) : forall st,
  bounded st -> bounded (snd (enqueueAll cfg cs st)).
Proof.
  induction cs as [|c cs IH]; intros st Hb; [exact Hb |].
  cbn [enqueueAll].
  destruct (enqueue cfg c st) as [h st1] eqn:E1.
  destruct (enqueueAll cfg cs st1) as [hs st2] eqn:E2. simpl.
  pose proof (enqueue_bounded cfg c st Hb) as H1. rewrite E1 in H1.
  specialize (IH st1 H1). now rewrite E2 in IH.
Qed.

(** What a batch adds to the queue of a pipeline. *)
Lemma enqueueAll_queued (cfg : Config) (cs : list Call) (st : State) :
  bounded st ->
  queued (snd (enqueueAll cfg cs st)) = queued st ++ (driverCall cfg <$> cs).
Proof.
  intros [Hh Hc].
  destruct (enqueueAll cfg cs st) as [hs stF] eqn:E. simpl.
  destruct (enqueueAll_spec cfg cs _ _ _ E)
    as (_ & _ & _ & (ls & Hcmds & Hll & Hls) & Hold & Hnew).
  unfold queued. rewrite Hcmds, omap_app. f_equal.
  - apply omap_ext_in. intros l Hl. now rewrite Hold by (now apply Hc).
  - apply omap_positional; [exact Hll |].
    intros i c Hi. exists (brk st + 2 * i)%nat. split.
    + apply Hls. apply lookup_lt_is_Some. eauto.
    + destruct (Hnew i c Hi) as [H1 _]. now rewrite H1.
Qed.

Lemma callKeys_driverCall (cfg : Config) (c : Call) :
  callKeys (driverCall cfg c) = GetKeyWithPrefix cfg <$> callKeys c.
Proof. destruct c; reflexivity. Qed.

(** X20: what a pipeline queues is what the caller enqueued: after a
    batch, the queue holds the earlier commands followed by one command
    per call, in enqueue order; in each of them every key is prefixed
    and nothing else is, the expiration of [Set] and [SetNX] is the one
    [GetTTL] resolves while that of [Expire] is passed as given, and the
    kind of result is that of the call. *)
Theorem batch_queues_each_call_in_order (cfg : Config) (cs : list Call) (st : State) :
  bounded st ->
  queued (snd (enqueueAll cfg cs st)) = queued st ++ (driverCall cfg <$> cs) /\
  length (queued (snd (enqueueAll cfg cs st))) = (length (queued st) + length cs)%nat /\
  (forall c,
     callKeys (driverCall cfg c) = GetKeyWithPrefix cfg <$> callKeys c /\
     kindOf (driverCall cfg c) = kindOf c /\
     callExpiration (driverCall cfg c) =
       match c with
       | CallExpire _ expiration => Some expiration
       | _ => GetTTL cfg <$> callExpiration c
       end).
Proof.
  intros Hb.
  pose proof (enqueueAll_queued cfg cs st Hb) as Hq.
  split; [exact Hq | split].
  - rewrite Hq, length_app, length_fmap. reflexivity.
  - intros c. split; [apply callKeys_driverCall | split]; now destruct c.
Qed.

Lemma batch_queues_each_call_in_order_witness :
  queued (snd (enqueueAll appConfig errorBatch emptyState)) =
    queued emptyState ++ (driverCall appConfig <$> errorBatch).
Proof.
  apply (batch_queues_each_call_in_order appConfig errorBatch emptyState).
  apply bounded_emptyState.
Defined.

(** X21: a discarded batch is never sent: after [Discard] the queue is
    empty, so a later [Exec] asks the store for nothing, returns no
    result pointers, and leaves every command of the discarded batch as
    it was queued, unexecuted; commands enqueued after the [Discard] are
    the only ones a later [Exec] sends. *)
Theorem discarded_batch_is_never_sent (server : list Call -> RoundTrip)
    (cfg : Config) (cs : list Call) (st : State) :
  bounded st ->
  let st1 := snd (enqueueAll cfg cs st) in
  let st2 := snd (Discard st1) in
  fst (Discard st1) = None /\
  queued st2 = [] /\
  heap st2 = heap st1 /\
  fst (pipe_Exec server st2) = ([], rt_err (server [])) /\
  heap (snd (Exec server st2)) = heap st1 /\
  (forall later,
     queued (snd (enqueueAll cfg later st2)) = driverCall cfg <$> later).
Proof.
  intros Hb st1 st2.
  assert (Hb1 : bounded st1) by now apply enqueueAll_bounded.
  assert (Hb2 : bounded st2).
  { destruct Hb1 as [Hh _]. split; [exact Hh |].
    intros l Hl. now apply elem_of_nil in Hl. }
  split; [reflexivity | split; [reflexivity | split; [reflexivity |]]].
  split; [reflexivity | split].
  - unfold Exec, pipe_Exec.
    destruct (rt_err (server (queued st2))); reflexivity.
  - intros later. now rewrite enqueueAll_queued.
Qed.

Lemma discarded_batch_is_never_sent_witness :
  queued (snd (Discard (snd (enqueueAll appConfig errorBatch emptyState)))) = [] /\
  queued (snd (enqueueAll appConfig basicBatch
                 (snd (Discard (snd (enqueueAll appConfig errorBatch emptyState))))))
    = driverCall appConfig <$> basicBatch.
Proof.
  pose proof (discarded_batch_is_never_sent basicServer appConfig errorBatch emptyState
                bounded_emptyState) as (_ & H1 & _ & _ & _ & H2).
  split; [exact H1 | apply H2].
Defined.

(** X22: when the driver's [pipe.Exec] returns an error, [Exec] returns
    that error and no results at all, and every handle of the batch is
    still the unresolved one; whatever the store answered for the
    individual commands is then out of the caller's reach. *)
Theorem failed_Exec_leaves_no_outcome (server : list Call -> RoundTrip)
    (cfg : Config) (cs : list Call) (hs : list loc)
    (res : option (list loc) * option error) (st2 : State) (e : error) :
  runBatch server cfg cs = (hs, res, st2) ->
  rt_err (server (driverCall cfg <$> cs)) = Some e ->
  res = (None, Some e) /\
  length hs = length cs /\
  forall i c,
    cs !! i = Some c ->
    exists h, hs !! i = Some h /\ handleAt st2 h = Some (unresolved (kindOf c)).
Proof.
  unfold runBatch. intros Hrun Herr.
  pose proof (enqueueAll_queued cfg cs emptyState bounded_emptyState) as Hq.
  destruct (enqueueAll cfg cs emptyState) as [hs' st1] eqn:E.
  destruct (enqueueAll_spec cfg cs _ _ _ E) as (_ & Hlen & Hhs & _ & _ & Hnew).
  simpl in Hq. unfold Exec, pipe_Exec in Hrun. rewrite Hq, Herr in Hrun.
  injection Hrun as <- <- <-.
  split; [reflexivity | split; [exact Hlen |]].
  intros i c Hc.
  assert (Hi : (i < length cs)%nat) by (apply lookup_lt_is_Some; eauto).
  exists (brk emptyState + 2 * i + 1)%nat. split; [now apply Hhs |].
  destruct (Hnew i c Hc) as [_ H2].
  unfold handleAt. simpl heap.
  now rewrite (writeReplies_handle _ _ _ _ _ H2).
Qed.

Lemma failed_Exec_leaves_no_outcome_witness :
  (@None (list loc), Some (DriverError "i/o timeout")) =
    (None, Some (DriverError "i/o timeout")) /\
  length [1; 3]%nat = length basicBatch /\
  forall i c,
    basicBatch !! i = Some c ->
    exists h, [1; 3]%nat !! i = Some h /\
              handleAt (snd (runBatch downServer DefaultConfig basicBatch)) h
                = Some (unresolved (kindOf c)).
Proof.
  apply (failed_Exec_leaves_no_outcome downServer DefaultConfig basicBatch
           [1; 3]%nat (None, Some (DriverError "i/o timeout"))
           (snd (runBatch downServer DefaultConfig basicBatch))
           (DriverError "i/o timeout")).
  - vm_compute. reflexivity.
  - reflexivity.
Defined.

(** X23: every enqueue returns a handle of its own: the handles of a
    batch are pairwise different pointers, so are the result pointers
    [Exec] returns, no handle is one of the results, and behind each
    handle pointer is a handle of the kind of its call. *)
Theorem batch_handles_are_distinct (server : list Call -> RoundTrip)
    (cfg : Config) (cs : list Call) (hs : list loc)
    (res : option (list loc) * option error) (st2 : State) :
  runBatch server cfg cs = (hs, res, st2) ->
  NoDup hs /\
  (forall results, fst res = Some results ->
     NoDup results /\ length results = length cs /\
     forall h, h ∈ hs -> h ∉ results) /\
  (forall i c h, cs !! i = Some c -> hs !! i = Some h ->
     exists x, handleAt st2 h = Some x /\ h_kind x = kindOf c).
Proof.
  unfold runBatch. intros Hrun.
  destruct (enqueueAll cfg cs emptyState) as [hs' st1] eqn:E.
  destruct (enqueueAll_spec cfg cs _ _ _ E)
    as (_ & Hlen & Hhs & (ls & Hcmds & Hll & Hls) & _ & Hnew).
  change (cmds emptyState ++ ls) with ls in Hcmds.
  change (brk emptyState) with 0%nat in *.
  assert (Hhs' : forall i h, hs' !! i = Some h -> h = (0 + 2 * i + 1)%nat).
  { intros i h Hi.
    assert (Hlt : (i < length cs)%nat).
    { rewrite <- Hlen. apply lookup_lt_is_Some. eauto. }
    rewrite (Hhs i Hlt) in Hi. now injection Hi. }
  assert (Hls' : forall i l, ls !! i = Some l -> l = (0 + 2 * i)%nat).
  { intros i l Hi.
    assert (Hlt : (i < length cs)%nat).
    { rewrite <- Hll. apply lookup_lt_is_Some. eauto. }
    rewrite (Hls i Hlt) in Hi. now injection Hi. }
  assert (Hres : forall results, fst res = Some results -> results = ls).
  { intros results Hr. unfold Exec, pipe_Exec in Hrun.
    destruct (rt_err (server (queued st1))); injection Hrun as _ <- _; simpl in Hr;
      [discriminate | congruence]. }
  assert (Hst : heap st2 = writeReplies ls (rt_replies (server (queued st1))) (heap st1)).
  { unfold Exec, pipe_Exec in Hrun. rewrite Hcmds in Hrun.
    destruct (rt_err (server (queued st1))); now injection Hrun as _ _ <-. }
  assert (hs = hs') as ->.
  { unfold Exec, pipe_Exec in Hrun.
    destruct (rt_err (server (queued st1))); now injection Hrun as <- _ _. }
  split; [| split].
  - apply NoDup_alt. intros i j h Hi Hj.
    apply Hhs' in Hi. apply Hhs' in Hj. lia.
  - intros results Hr. rewrite (Hres results Hr).
    split; [| split; [exact Hll |]].
    + apply NoDup_alt. intros i j l Hi Hj.
      apply Hls' in Hi. apply Hls' in Hj. lia.
    + intros h Hh Hin.
      apply list_elem_of_lookup in Hh as [i Hi]. apply Hhs' in Hi.
      apply list_elem_of_lookup in Hin as [j Hj]. apply Hls' in Hj. lia.
  - intros i c h Hc Hh. apply Hhs' in Hh. subst h.
    destruct (Hnew i c Hc) as [_ H2].
    exists (unresolved (kindOf c)). split; [| reflexivity].
    unfold handleAt. rewrite Hst.
    now rewrite (writeReplies_handle _ _ _ _ _ H2).
Qed.

Lemma batch_handles_are_distinct_witness : NoDup [1; 3; 5]%nat.
Proof.
  refine (proj1 (batch_handles_are_distinct errorServer DefaultConfig errorBatch
                   [1; 3; 5]%nat (Some [0; 2; 4]%nat, None)
                   (snd (runBatch errorServer DefaultConfig errorBatch)) _)).
  vm_compute. reflexivity.
Defined.
